(** * Fixed-point complex arrays of OwlProgram: LibSource/ComplexShortArray.h

    A shallow embedding of [ComplexShort], [ComplexShortArray], [ComplexInt]
    and [ComplexIntArray], with the properties of their precision
    conversions, comparison, in-place addition and polar accessors.

    Conventions of the embedding.
    - [int16_t] and [int32_t] values are integers of [Z]; a conversion to a
      fixed width is written out as a wrap-around ([wrap]).
    - An array object is a handle [(data, size)]: a base address and an
      element count.  Storage is a separate store ([mem]) so that two handles
      may share it.  A [ComplexShort] at index [n] of base [p] occupies the
      16-bit cells [p + 2n] ([re]) and [p + 2n + 1] ([im]); this is the layout
      the header relies on when it casts [ComplexShort*] to [int16_t*].  The
      same holds for [ComplexInt] and 32-bit cells.
    - Reading or writing a cell that is not part of the store is a fault
      ([None]); this is how a dereference of the null pointer shows.
    - The header has two bodies for several methods, selected by the macro
      [ARM_CORTEX]; [config] selects the body.
    - A [float] is the real number it stands for.  Rounding to single
      precision and the functions of the C library come from a floating-point
      environment ([FloatEnv]) that is known through its accuracy only.  The
      sum of a [float] and the [double] constant 0.5 is taken without
      rounding: for the magnitudes met here (below 2^17) the sum is a
      [double], unless the [float] is so small that the sum stays strictly
      between 0 and 1 either way.
    - A conversion of a floating-point value that does not fit [int16_t],
      and an [int] overflow, have no defined result ([None]).
    - [size] is a natural number and loop counters do not overflow: an array
      of 2^31 elements does not fit the address space of the target. *)

From Stdlib Require Import ZArith Lia Reals Lra.
From stdpp Require Import base option gmap.

Local Open Scope Z_scope.

(** ** Build configuration *)

(** [ARM_CORTEX]: the macro is defined and the CMSIS-DSP vector primitives
    are used.  [PORTABLE]: the [#else] branches, plain loops. *)
Variant config := ARM_CORTEX | PORTABLE.

(** ** Fixed-width integers *)

(** Conversion of an integer to a signed type of [bits] bits. *)
Definition wrap (bits z : Z) : Z :=
  (z + 2 ^ (bits - 1)) mod 2 ^ bits - 2 ^ (bits - 1).

Definition int16_t (z : Z) : Z := wrap 16 z.
Definition int32_t (z : Z) : Z := wrap 32 z.

Definition in_int16 (z : Z) : Prop := -32768 <= z <= 32767.
Definition in_int32 (z : Z) : Prop := -2147483648 <= z <= 2147483647.

(** ** The store *)

Definition NULL : Z := 0.

(** [m16] holds the cells of type [int16_t], [m32] those of type [int32_t];
    addresses count cells of the respective width. *)
Record mem := Mem { m16 : gmap Z Z; m32 : gmap Z Z }.

Definition empty_mem : mem := Mem ∅ ∅.

Definition load16 (m : mem) (a : Z) : option Z := m16 m !! a.
Definition load32 (m : mem) (a : Z) : option Z := m32 m !! a.

Definition store16 (m : mem) (a v : Z) : option mem :=
  match m16 m !! a with
  | Some _ => Some (Mem (<[a := v]> (m16 m)) (m32 m))
  | None => None
  end.

Definition store32 (m : mem) (a v : Z) : option mem :=
  match m32 m !! a with
  | Some _ => Some (Mem (m16 m) (<[a := v]> (m32 m)))
  | None => None
  end.

(** ** The vector primitives of CMSIS-DSP

    They are not part of this repository; the header calls them with
    (pointer, pointer, count) triples over raw fixed-point cells. *)

(** Saturation of a wide sum to the Q31 range. *)
Definition clip_q63_to_q31 (z : Z) : Z :=
  Z.max (-2147483648) (Z.min z 2147483647).

(** Modelled from the spec: the hardware vector-add primitive
    ([arm_add_q31]) is missing from the sources; it is the saturating add
    named in the specification's scope section,
    [pDst[n] = saturate (pSrcA[n] + pSrcB[n])] for [n < blockSize], cell by
    cell in ascending order. *)
Fixpoint arm_add_q31 (m : mem) (pSrcA pSrcB pDst : Z) (blockSize : nat)
  : option mem :=
  match blockSize with
  | O => Some m
  | S k =>
      x ← load32 m pSrcA;
      y ← load32 m pSrcB;
      m' ← store32 m pDst (clip_q63_to_q31 (x + y));
      arm_add_q31 m' (pSrcA + 1) (pSrcB + 1) (pDst + 1) k
  end.

(** Modelled from the spec: the hardware widening primitive
    ([arm_q15_to_q31]) is missing from the sources; it scales by 2^16,
    [pDst[n] = (q31_t) pSrc[n] << 16]. *)
Fixpoint arm_q15_to_q31 (m : mem) (pSrc pDst : Z) (blockSize : nat)
  : option mem :=
  match blockSize with
  | O => Some m
  | S k =>
      x ← load16 m pSrc;
      m' ← store32 m pDst (int32_t (Z.shiftl x 16));
      arm_q15_to_q31 m' (pSrc + 1) (pDst + 1) k
  end.

(** Modelled from the spec: the hardware narrowing primitive
    ([arm_q31_to_q15]) is missing from the sources; it truncates, keeping
    the upper half, [pDst[n] = (q15_t) (pSrc[n] >> 16)]. *)
Fixpoint arm_q31_to_q15 (m : mem) (pSrc pDst : Z) (blockSize : nat)
  : option mem :=
  match blockSize with
  | O => Some m
  | S k =>
      x ← load32 m pSrc;
      m' ← store16 m pDst (int16_t (Z.shiftr x 16));
      arm_q31_to_q15 m' (pSrc + 1) (pDst + 1) k
  end.

(** Modelled from the spec: the fixed-point square root used by the
    magnitude primitive ([arm_sqrt_q15]) is missing from the sources; for a
    positive Q15 input [x] (standing for [x / 2^15]) it returns the Q15 root,
    that is the integer root of [x * 2^15], and 0 for other inputs. *)
Definition arm_sqrt_q15 (x : Z) : Z :=
  if 0 <? x then Z.sqrt (x * 32768) else 0.

(** Modelled from the spec: the hardware vector-magnitude primitive
    ([arm_cmplx_mag_q15], here for one sample) is missing from the sources;
    it takes 1.15 inputs and yields the magnitude in 2.14 format, as the
    comment in [getMagnitude] says: the sum of squares is shifted right by
    17 and its Q15 root taken, which is half of [sqrt (re^2 + im^2)]. *)
Definition arm_cmplx_mag_q15 (re im : Z) : Z :=
  arm_sqrt_q15 (int16_t (Z.shiftr (re * re + im * im) 17)).

(** ** Floating point *)

(** Conversion of a real to an integer: truncation toward zero. *)
Definition Rtrunc (x : R) : Z :=
  if Rle_dec 0 x then Int_part x else - Int_part (- x).

(** The conversion to [int16_t] of a truncated floating-point value: a
    value outside the range of the type has no defined result. *)
Definition to_int16 (z : Z) : option Z :=
  if (-32768 <=? z) && (z <=? 32767) then Some z else None.

(** Modelled from the spec: [atan2] of the C library is missing from the
    sources; it is the principal-value angle in (-pi, pi] of the point
    [(x, y)], with [atan2 0 0 = 0].  This is the exact angle; the library
    function is [atan2f] of the environment below. *)
Definition atan2 (y x : Z) : R :=
  if 0 <? x then atan (IZR y / IZR x)
  else if x <? 0 then
    if 0 <=? y then (atan (IZR y / IZR x) + PI)%R
    else (atan (IZR y / IZR x) - PI)%R
  else if 0 <? y then (PI / 2)%R
  else if y <? 0 then (- PI / 2)%R
  else 0%R.

(** The unit roundoff of single precision, 2^-24. *)
Definition u32 : R := / 16777216.

(** A bound on the absolute error of a rounding that underflows, 2^-64. *)
Definition eta32 : R := / 18446744073709551616.

(** The accuracy asked of the library functions, 2^-22. *)
Definition libm_eps : R := / 4194304.

(** Modelled from the spec: the floating-point arithmetic of the target and
    the functions [cosf], [sinf] and [atan2] of the C library are missing
    from the sources, which do not state their accuracy either.  An
    environment provides what IEEE 754 single precision with rounding to
    nearest (or the evaluation of [float] expressions in a wider format) and
    a library accurate to about one unit in the last place provide.  [fl] is
    the rounding of a real to single precision: it is exact on the integers
    up to 2^24 and has relative error at most [u32] (plus [eta32] to cover
    underflow) below 2^32.  [cosf] and [sinf] are within [libm_eps] of the
    cosine and the sine, and exact at 0.  [atan2f y x] is [atan2(y, x)] on
    integer arguments, computed in double precision and converted to [float]
    as [getPhase] returns it: within [libm_eps] of the angle, and exactly 0
    on the non-negative real axis.  Nothing else is known of an environment:
    a property proved for every environment does not depend on how a
    particular rounding falls. *)
Class FloatEnv := {
  fl : R → R;
  cosf : R → R;
  sinf : R → R;
  atan2f : Z → Z → R;
  fl_int : ∀ n : Z, -16777216 <= n <= 16777216 → fl (IZR n) = IZR n;
  fl_err : ∀ x : R, (Rabs x <= 4294967296)%R →
             (Rabs (fl x - x) <= u32 * Rabs x + eta32)%R;
  cosf_0 : cosf 0 = 1%R;
  sinf_0 : sinf 0 = 0%R;
  cosf_err : ∀ x : R, (Rabs (cosf x - cos x) <= libm_eps)%R;
  sinf_err : ∀ x : R, (Rabs (sinf x - sin x) <= libm_eps)%R;
  atan2f_0 : ∀ x : Z, 0 <= x → atan2f 0 x = 0%R;
  atan2f_err : ∀ y x : Z, (Rabs (atan2f y x - atan2 y x) <= libm_eps)%R
}.

(** [sqrtf]: the square root rounded to single precision. *)
Definition sqrtf `{FloatEnv} (x : R) : R := fl (sqrt x).

(** The environment without any rounding error.  It shows that the accuracy
    asked above can be met; the examples are stated in it. *)
Definition exact_env : FloatEnv.
Proof.
  refine {| fl := λ x : R, x; cosf := cos; sinf := sin; atan2f := atan2 |}.
  - reflexivity.
  - intros x _. rewrite Rminus_diag, Rabs_R0.
    pose proof (Rabs_pos x). unfold u32, eta32. nra.
  - exact cos_0.
  - exact sin_0.
  - intros x. rewrite Rminus_diag, Rabs_R0. unfold libm_eps. lra.
  - intros x. rewrite Rminus_diag, Rabs_R0. unfold libm_eps. lra.
  - intros x Hx. unfold atan2. simpl.
    destruct (Z.ltb_spec 0 x); [|destruct (Z.ltb_spec x 0); [lia|reflexivity]].
    unfold Rdiv. rewrite Rmult_0_l. exact atan_0.
  - intros y x. rewrite Rminus_diag, Rabs_R0. unfold libm_eps. lra.
Defined.

(** ** struct ComplexShort *)

Module ComplexShort.

Record t := Build { re : Z; im : Z }.

(** [setPolar]: [magnitude] is converted to [float] and multiplied in single
    precision; 0.5 is added in double precision; the conversion to [int16_t]
    truncates toward zero and is not guarded against overflow.  Both fields
    are overwritten. *)
Definition setPolar `{FloatEnv} (v : t) (magnitude : Z) (phase : R) : option t :=
  r ← to_int16 (Rtrunc (fl (fl (IZR magnitude) * cosf phase) + 0.5));
  i ← to_int16 (Rtrunc (fl (fl (IZR magnitude) * sinf phase) + 0.5));
  Some {| re := r; im := i |}.

(** [getMagnitude]: with [ARM_CORTEX], the magnitude primitive on the pair
    [{re, im}] followed by [out >> 1]; otherwise the branch behind
    [#error TODO], [int16_t(sqrtf(re*re+im*im) + 0.5)], where the sum of
    squares is an [int] converted to [float]. *)
Definition getMagnitude `{FloatEnv} (c : config) (v : t) : option Z :=
  match c with
  | ARM_CORTEX =>
      let out := arm_cmplx_mag_q15 (re v) (im v) in
      Some (int16_t (Z.shiftr out 1))
  | PORTABLE =>
      let s := re v * re v + im v * im v in
      if s <=? 2147483647
      then to_int16 (Rtrunc (sqrtf (fl (IZR s)) + 0.5))
      else None
  end.

Definition getPhase `{FloatEnv} (v : t) : R := atan2f (im v) (re v).

Definition setPhase `{FloatEnv} (c : config) (v : t) (phase : R) : option t :=
  magnitude ← getMagnitude c v;
  setPolar v magnitude phase.

Definition setMagnitude `{FloatEnv} (c : config) (v : t) (magnitude : Z)
  : option t :=
  let phase := getPhase v in
  setPolar v magnitude phase.

End ComplexShort.

(** ** class ComplexShortArray *)

Module ComplexShortArray.

Record t := Build { data : Z; size : nat }.

(** The default constructor: [data(NULL), size(0)]. *)
Definition default : t := Build NULL 0.

Definition getSize (a : t) : nat := size a.
Definition getData (a : t) : Z := data a.

(** [data[i].re] and [data[i].im]. *)
Definition re (m : mem) (a : t) (i : nat) : option Z :=
  load16 m (data a + 2 * Z.of_nat i).
Definition im (m : mem) (a : t) (i : nat) : option Z :=
  load16 m (data a + 2 * Z.of_nat i + 1).

(** The loop of [equals], from index [n] for [k] more elements.  The
    disjunction is evaluated left to right: the imaginary parts are read
    only when the real parts agree. *)
Fixpoint equals_loop (m : mem) (this other : t) (n k : nat) : option bool :=
  match k with
  | O => Some true
  | S k' =>
      x ← re m this n;
      x' ← re m other n;
      if negb (x =? x') then Some false
      else
        y ← im m this n;
        y' ← im m other n;
        if negb (y =? y') then Some false
        else equals_loop m this other (S n) k'
  end.

Definition equals (m : mem) (this other : t) : option bool :=
  if negb (size this =? getSize other)%nat then Some false
  else equals_loop m this other 0 (size this).

End ComplexShortArray.

(** ** class ComplexIntArray *)

Module ComplexIntArray.

Record t := Build { data : Z; size : nat }.

Definition default : t := Build NULL 0.

Definition getSize (a : t) : nat := size a.
Definition getData (a : t) : Z := data a.

(** [data[i].re] and [data[i].im], here on 32-bit cells. *)
Definition re (m : mem) (a : t) (i : nat) : option Z :=
  load32 m (data a + 2 * Z.of_nat i).
Definition im (m : mem) (a : t) (i : nat) : option Z :=
  load32 m (data a + 2 * Z.of_nat i + 1).

(** The [#else] loop of [add]: 32-bit sums, written to [destination]. *)
Fixpoint add_loop (m : mem) (this operand2 destination : t) (n k : nat)
  : option mem :=
  match k with
  | O => Some m
  | S k' =>
      x ← re m this n;
      x' ← re m operand2 n;
      m1 ← store32 m (data destination + 2 * Z.of_nat n) (int32_t (x + x'));
      y ← im m1 this n;
      y' ← im m1 operand2 n;
      m2 ← store32 m1 (data destination + 2 * Z.of_nat n + 1) (int32_t (y + y'));
      add_loop m2 this operand2 destination (S n) k'
  end.

Definition add (c : config) (m : mem) (this operand2 destination : t)
  : option mem :=
  match c with
  | ARM_CORTEX =>
      arm_add_q31 m (data this) (getData operand2) (getData destination)
        (size this * 2)
  | PORTABLE => add_loop m this operand2 destination 0 (size this)
  end.

(** The one-operand [add]: [add(operand2, *this)]. *)
Definition add_inplace (c : config) (m : mem) (this operand2 : t)
  : option mem :=
  add c m this operand2 this.

(** The [#else] loop of [copyFrom]: each 16-bit field of [operand2] is
    assigned to the 32-bit field of [this]. *)
Fixpoint copyFrom_loop (m : mem) (this : t) (operand2 : ComplexShortArray.t)
    (n k : nat) : option mem :=
  match k with
  | O => Some m
  | S k' =>
      x ← ComplexShortArray.re m operand2 n;
      m1 ← store32 m (data this + 2 * Z.of_nat n) x;
      y ← ComplexShortArray.im m1 operand2 n;
      m2 ← store32 m1 (data this + 2 * Z.of_nat n + 1) y;
      copyFrom_loop m2 this operand2 (S n) k'
  end.

Definition copyFrom (c : config) (m : mem) (this : t)
    (operand2 : ComplexShortArray.t) : option mem :=
  match c with
  | ARM_CORTEX =>
      arm_q15_to_q31 m (ComplexShortArray.getData operand2) (data this)
        (size this * 2)
  | PORTABLE => copyFrom_loop m this operand2 0 (size this)
  end.

(** The [#else] loop of [copyTo], as written in the header: the left-hand
    side of both assignments is [data[n]], the 32-bit array itself, and the
    right-hand side reads [operand2]. *)
Fixpoint copyTo_loop (m : mem) (this : t) (operand2 : ComplexShortArray.t)
    (n k : nat) : option mem :=
  match k with
  | O => Some m
  | S k' =>
      x ← ComplexShortArray.re m operand2 n;
      m1 ← store32 m (data this + 2 * Z.of_nat n) (int16_t x);
      y ← ComplexShortArray.im m1 operand2 n;
      m2 ← store32 m1 (data this + 2 * Z.of_nat n + 1) (int16_t y);
      copyTo_loop m2 this operand2 (S n) k'
  end.

Definition copyTo (c : config) (m : mem) (this : t)
    (operand2 : ComplexShortArray.t) : option mem :=
  match c with
  | ARM_CORTEX =>
      arm_q31_to_q15 m (data this) (ComplexShortArray.getData operand2)
        (size this * 2)
  | PORTABLE => copyTo_loop m this operand2 0 (size this)
  end.

End ComplexIntArray.

(** ** Predicates used in the statements *)

(** Every element of the array can be read. *)
Definition readable16 (m : mem) (a : ComplexShortArray.t) : Prop :=
  ∀ i : nat, (i < ComplexShortArray.size a)%nat →
    is_Some (ComplexShortArray.re m a i) ∧ is_Some (ComplexShortArray.im m a i).

(** The cells [p], ..., [p + n - 1] are part of the store. *)
Definition cells16 (m : mem) (p : Z) (n : nat) : Prop :=
  ∀ i : Z, 0 <= i < Z.of_nat n → is_Some (load16 m (p + i)).
Definition cells32 (m : mem) (p : Z) (n : nat) : Prop :=
  ∀ i : Z, 0 <= i < Z.of_nat n → is_Some (load32 m (p + i)).

(** Every 16-bit cell of the store holds a value of type [int16_t]. *)
Definition wf16 (m : mem) : Prop :=
  ∀ a v, load16 m a = Some v → in_int16 v.

(** Every 32-bit cell of the store holds a value of type [int32_t]. *)
Definition wf32 (m : mem) : Prop :=
  ∀ a v, load32 m a = Some v → in_int32 v.

(** A store given by the contents of its cells. *)
Definition mem_of (l16 l32 : list (Z * Z)) : mem :=
  Mem (list_to_map l16) (list_to_map l32).

(** No elementwise sum of the cells [pa + i] and [pb + i], [i < n], leaves
    the 32-bit range. *)
Definition sums_fit (m : mem) (pa pb : Z) (n : nat) : Prop :=
  ∀ i x y, 0 <= i < Z.of_nat n →
    load32 m (pa + i) = Some x → load32 m (pb + i) = Some y → in_int32 (x + y).

(** Writing [pd], [pd + 1], ... in ascending order never overwrites a cell
    of [ps] that is still to be read. *)
Definition no_clobber (ps pd : Z) (n : nat) : Prop :=
  pd <= ps ∨ ps + Z.of_nat n <= pd.

(** ** Sample handles and stores *)

Definition ex_A : ComplexShortArray.t := ComplexShortArray.Build 100 1.
Definition ex_A2 : ComplexShortArray.t := ComplexShortArray.Build 200 1.
Definition ex_W : ComplexIntArray.t := ComplexIntArray.Build 300 1.
Definition ex_B : ComplexIntArray.t := ComplexIntArray.Build 400 1.
Definition ex_D : ComplexIntArray.t := ComplexIntArray.Build 500 1.

(** [ex_A] = [{1, 2}], [ex_A2] = [{0, 0}], [ex_W] = [{196608, 0}],
    [ex_B] = [{5, 7}], [ex_D] = [{0, 0}]. *)
Definition ex_mem : mem :=
  mem_of [(100, 1); (101, 2); (200, 0); (201, 0)]
         [(300, 196608); (301, 0); (400, 5); (401, 7); (500, 0); (501, 0)].

(** [ex_W] = [{2147483647, 0}], [ex_B] = [{1, 0}], [ex_D] = [{0, 0}]. *)
Definition ex_mem_max : mem :=
  mem_of [] [(300, 2147483647); (301, 0); (400, 1); (401, 0); (500, 0); (501, 0)].

(** [z] is [x] truncated toward zero. *)
Definition toward_zero (x : R) (z : Z) : Prop :=
  ((0 <= x)%R → (IZR z <= x < IZR z + 1)%R) ∧
  ((x < 0)%R → (IZR z - 1 < x <= IZR z)%R).

(** The zero value. *)
Definition zero : ComplexShort.t := ComplexShort.Build 0 0.

(** A negative component moved one unit toward zero. *)
Definition toward0 (z : Z) : Z := if z <? 0 then z + 1 else z.

(** ** Further sample data and auxiliary definitions *)

(** A second handle on the storage of [ex_A]. *)
Definition ex_A3 : ComplexShortArray.t := ComplexShortArray.Build 100 1.

(** The cell-by-cell loop that both bodies of [add] run, with the per-cell
    conversion [f] of the sum: saturation for the vector primitive, the
    32-bit wrap-around for the portable loop.  It is used to reason about
    the two bodies at once. *)
Fixpoint cell_sum_loop (f : Z → Z) (m : mem) (pa pb pd : Z) (n : nat)
  : option mem :=
  match n with
  | O => Some m
  | S k =>
      x ← load32 m pa;
      y ← load32 m pb;
      m' ← store32 m pd (f (x + y));
      cell_sum_loop f m' (pa + 1) (pb + 1) (pd + 1) k
  end.

(** The per-cell conversion of each body of [add]. *)
Definition sum_conv (c : config) : Z → Z :=
  match c with
  | ARM_CORTEX => clip_q63_to_q31
  | PORTABLE => int32_t
  end.

(** Saturation to the 16-bit range. *)
Definition sat16 (z : Z) : Z := Z.max (-32768) (Z.min z 32767).

(** The value [copyFrom] stores for a 16-bit field [x]: scaled by 2^16 by
    the vector primitive, unscaled by the portable loop. *)
Definition widen_conv (c : config) (x : Z) : Z :=
  match c with
  | ARM_CORTEX => x * 65536
  | PORTABLE => x
  end.

(** Sample data for sums through wide arrays: A = [{30000, -5}] at 100,
    B = [{10000, -7}] at 200, C = [{0, 0}] at 250; two wide arrays at 300 and
    400. *)
Definition acc_A : ComplexShortArray.t := ComplexShortArray.Build 100 1.
Definition acc_B : ComplexShortArray.t := ComplexShortArray.Build 200 1.
Definition acc_C : ComplexShortArray.t := ComplexShortArray.Build 250 1.
Definition acc_W1 : ComplexIntArray.t := ComplexIntArray.Build 300 1.
Definition acc_W2 : ComplexIntArray.t := ComplexIntArray.Build 400 1.
Definition acc_mem : mem :=
  mem_of [(100, 30000); (101, -5); (200, 10000); (201, -7); (250, 0); (251, 0)]
         [(300, 0); (301, 0); (400, 0); (401, 0)].

(** * Properties *)

(** ** Fixed-width integers *)

Lemma wrap16_id z : in_int16 z → int16_t z = z.
Proof.
  unfold in_int16, int16_t, wrap. intros H.
  change (2 ^ (16 - 1)) with 32768. change (2 ^ 16) with 65536.
  rewrite Z.mod_small; lia.
Qed.

Lemma wrap32_id z : in_int32 z → int32_t z = z.
Proof.
  unfold in_int32, int32_t, wrap. intros H.
  change (2 ^ (32 - 1)) with 2147483648. change (2 ^ 32) with 4294967296.
  rewrite Z.mod_small; lia.
Qed.

Lemma clip_id z : in_int32 z → clip_q63_to_q31 z = z.
Proof. unfold in_int32, clip_q63_to_q31. lia. Qed.

Lemma widen_exact x : in_int16 x → int32_t (Z.shiftl x 16) = x * 65536.
Proof.
  intros H. rewrite Z.shiftl_mul_pow2 by lia. change (2 ^ 16) with 65536.
  apply wrap32_id. unfold in_int16 in H. unfold in_int32. lia.
Qed.

Lemma narrow_widen x : in_int16 x → int16_t (Z.shiftr (x * 65536) 16) = x.
Proof.
  intros H. rewrite Z.shiftr_div_pow2 by lia. change (2 ^ 16) with 65536.
  rewrite Z.div_mul by lia. now apply wrap16_id.
Qed.

(** ** [ComplexShortArray::equals] *)

Lemma equals_loop_spec m (A B : ComplexShortArray.t) : ∀ (k n : nat),
  (∀ i : nat, (n <= i < n + k)%nat →
     (is_Some (ComplexShortArray.re m A i) ∧ is_Some (ComplexShortArray.im m A i)) ∧
     (is_Some (ComplexShortArray.re m B i) ∧ is_Some (ComplexShortArray.im m B i))) →
  ∃ b, ComplexShortArray.equals_loop m A B n k = Some b ∧
       (b = true ↔
        ∀ i : nat, (n <= i < n + k)%nat →
          ComplexShortArray.re m A i = ComplexShortArray.re m B i ∧
          ComplexShortArray.im m A i = ComplexShortArray.im m B i).
Proof.
  induction k as [|k IH]; intros n Hr; simpl.
  - exists true. split; [reflexivity|]. split; [|reflexivity]. intros _ i Hi. lia.
  - destruct (Hr n ltac:(lia)) as [[[x Hx] [y Hy]] [[x' Hx'] [y' Hy']]].
    rewrite Hx, Hx'. simpl.
    destruct (Z.eqb_spec x x') as [->|Hne]; simpl.
    + rewrite Hy, Hy'. simpl.
      destruct (Z.eqb_spec y y') as [->|Hne]; simpl.
      * destruct (IH (S n)) as [b [Hb Hiff]].
        { intros i Hi. apply Hr. lia. }
        exists b. split; [exact Hb|]. rewrite Hiff. split.
        -- intros H i Hi. destruct (decide (i = n)) as [->|Hin].
           ++ now rewrite Hx, Hx', Hy, Hy'.
           ++ apply H. lia.
        -- intros H i Hi. apply H. lia.
      * exists false. split; [reflexivity|]. split; [discriminate|].
        intros H. destruct (H n ltac:(lia)) as [_ H2]. congruence.
    + exists false. split; [reflexivity|]. split; [discriminate|].
      intros H. destruct (H n ltac:(lia)) as [H1 _]. congruence.
Qed.

(** C4. [equals] answers [false] whenever the two sizes differ; with equal
    sizes (and both arrays readable) it answers, and the answer is [true]
    exactly when at every index the real parts are the same integer and the
    imaginary parts are the same integer. *)
Theorem equals_spec (m : mem) (A B : ComplexShortArray.t) :
  (ComplexShortArray.size A ≠ ComplexShortArray.size B →
   ComplexShortArray.equals m A B = Some false) ∧
  (ComplexShortArray.size A = ComplexShortArray.size B →
   readable16 m A → readable16 m B →
   ∃ b, ComplexShortArray.equals m A B = Some b ∧
        (b = true ↔
         ∀ i : nat, (i < ComplexShortArray.size A)%nat →
           ComplexShortArray.re m A i = ComplexShortArray.re m B i ∧
           ComplexShortArray.im m A i = ComplexShortArray.im m B i)).
Proof.
  unfold ComplexShortArray.equals, ComplexShortArray.getSize. split.
  - intros Hne. destruct (Nat.eqb_spec (ComplexShortArray.size A) (ComplexShortArray.size B)); [lia|reflexivity].
  - intros Heq HA HB. rewrite <- Heq, Nat.eqb_refl. simpl.
    destruct (equals_loop_spec m A B (ComplexShortArray.size A) 0) as [b [Hb Hiff]].
    { intros i Hi. split; [apply HA|apply HB]; lia. }
    exists b. split; [exact Hb|]. rewrite Hiff. split; intros H i Hi; apply H; lia.
Qed.

(** ** The store *)

Lemma store32_ok m a v :
  is_Some (load32 m a) →
  store32 m a v = Some (Mem (m16 m) (<[a := v]> (m32 m))).
Proof. unfold load32, store32. intros [w ->]. reflexivity. Qed.

Lemma store16_ok m a v :
  is_Some (load16 m a) →
  store16 m a v = Some (Mem (<[a := v]> (m16 m)) (m32 m)).
Proof. unfold load16, store16. intros [w ->]. reflexivity. Qed.

(** ** The conversion primitives *)

Lemma arm_q15_to_q31_spec : ∀ (k : nat) (m : mem) (s d : Z),
  cells16 m s k → cells32 m d k →
  ∃ m', arm_q15_to_q31 m s d k = Some m' ∧ m16 m' = m16 m ∧
    (∀ i, 0 <= i < Z.of_nat k →
       ∃ x, load16 m (s + i) = Some x ∧
            load32 m' (d + i) = Some (int32_t (Z.shiftl x 16))) ∧
    (∀ a, ¬ (d <= a < d + Z.of_nat k) → load32 m' a = load32 m a).
Proof.
  induction k as [|k IH]; intros m s d Hs Hd.
  - exists m. simpl. repeat split; intros; first [lia|reflexivity].
  - simpl. destruct (Hs 0 ltac:(lia)) as [x Hx]. rewrite Z.add_0_r in Hx.
    rewrite Hx. simpl. rewrite store32_ok.
    2:{ specialize (Hd 0 ltac:(lia)). now rewrite Z.add_0_r in Hd. }
    simpl. set (m1 := Mem _ _).
    destruct (IH m1 (s + 1) (d + 1)) as (m' & Hrun & H16 & Hval & Hfr).
    + intros i Hi. unfold load16. simpl.
      replace (s + 1 + i) with (s + (i + 1)) by lia. apply Hs. lia.
    + intros i Hi. unfold load32. simpl. rewrite lookup_insert_ne by lia.
      replace (d + 1 + i) with (d + (i + 1)) by lia. apply Hd. lia.
    + exists m'. split; [exact Hrun|]. split; [now rewrite H16|]. split.
      * intros i Hi. destruct (decide (i = 0)) as [->|Hne].
        -- exists x. rewrite !Z.add_0_r. split; [exact Hx|].
           rewrite Hfr by lia. unfold load32. simpl. apply lookup_insert_eq.
        -- destruct (Hval (i - 1) ltac:(lia)) as [y [Hy1 Hy2]]. exists y.
           replace (s + 1 + (i - 1)) with (s + i) in Hy1 by lia.
           replace (d + 1 + (i - 1)) with (d + i) in Hy2 by lia.
           split; [exact Hy1|exact Hy2].
      * intros a Ha. rewrite Hfr by lia. unfold load32. simpl.
        apply lookup_insert_ne. lia.
Qed.

Lemma arm_q31_to_q15_spec : ∀ (k : nat) (m : mem) (s d : Z),
  cells32 m s k → cells16 m d k →
  ∃ m', arm_q31_to_q15 m s d k = Some m' ∧ m32 m' = m32 m ∧
    (∀ i, 0 <= i < Z.of_nat k →
       ∃ x, load32 m (s + i) = Some x ∧
            load16 m' (d + i) = Some (int16_t (Z.shiftr x 16))) ∧
    (∀ a, ¬ (d <= a < d + Z.of_nat k) → load16 m' a = load16 m a).
Proof.
  induction k as [|k IH]; intros m s d Hs Hd.
  - exists m. simpl. repeat split; intros; first [lia|reflexivity].
  - simpl. destruct (Hs 0 ltac:(lia)) as [x Hx]. rewrite Z.add_0_r in Hx.
    rewrite Hx. simpl. rewrite store16_ok.
    2:{ specialize (Hd 0 ltac:(lia)). now rewrite Z.add_0_r in Hd. }
    simpl. set (m1 := Mem _ _).
    destruct (IH m1 (s + 1) (d + 1)) as (m' & Hrun & H32 & Hval & Hfr).
    + intros i Hi. unfold load32. simpl.
      replace (s + 1 + i) with (s + (i + 1)) by lia. apply Hs. lia.
    + intros i Hi. unfold load16. simpl. rewrite lookup_insert_ne by lia.
      replace (d + 1 + i) with (d + (i + 1)) by lia. apply Hd. lia.
    + exists m'. split; [exact Hrun|]. split; [now rewrite H32|]. split.
      * intros i Hi. destruct (decide (i = 0)) as [->|Hne].
        -- exists x. rewrite !Z.add_0_r. split; [exact Hx|].
           rewrite Hfr by lia. unfold load16. simpl. apply lookup_insert_eq.
        -- destruct (Hval (i - 1) ltac:(lia)) as [y [Hy1 Hy2]]. exists y.
           replace (s + 1 + (i - 1)) with (s + i) in Hy1 by lia.
           replace (d + 1 + (i - 1)) with (d + i) in Hy2 by lia.
           split; [exact Hy1|exact Hy2].
      * intros a Ha. rewrite Hfr by lia. unfold load16. simpl.
        apply lookup_insert_ne. lia.
Qed.

Lemma store32_inv m a v m' :
  store32 m a v = Some m' → m' = Mem (m16 m) (<[a := v]> (m32 m)).
Proof. unfold store32. destruct (m32 m !! a); congruence. Qed.

(** ** The portable loop of [copyFrom] *)

Lemma copyFrom_loop_spec (W : ComplexIntArray.t) (A : ComplexShortArray.t) :
  ∀ (k n : nat) (m : mem),
  cells16 m (ComplexShortArray.data A + 2 * Z.of_nat n) (k * 2) →
  cells32 m (ComplexIntArray.data W + 2 * Z.of_nat n) (k * 2) →
  ∃ m', ComplexIntArray.copyFrom_loop m W A n k = Some m' ∧ m16 m' = m16 m ∧
    (∀ i, 0 <= i < Z.of_nat (k * 2) →
       ∃ x, load16 m (ComplexShortArray.data A + 2 * Z.of_nat n + i) = Some x ∧
            load32 m' (ComplexIntArray.data W + 2 * Z.of_nat n + i) = Some x) ∧
    (∀ a, ¬ (ComplexIntArray.data W + 2 * Z.of_nat n <= a
             < ComplexIntArray.data W + 2 * Z.of_nat n + Z.of_nat (k * 2)) →
          load32 m' a = load32 m a).
Proof.
  induction k as [|k IH]; intros n m Hs Hd.
  - exists m. simpl. repeat split; intros; first [lia|reflexivity].
  - simpl. unfold ComplexShortArray.re, ComplexShortArray.im.
    set (s := ComplexShortArray.data A + 2 * Z.of_nat n) in *.
    set (d := ComplexIntArray.data W + 2 * Z.of_nat n) in *.
    destruct (Hs 0 ltac:(lia)) as [x Hx]. rewrite Z.add_0_r in Hx.
    destruct (Hs 1 ltac:(lia)) as [y Hy].
    rewrite Hx. simpl. rewrite store32_ok.
    2:{ specialize (Hd 0 ltac:(lia)). now rewrite Z.add_0_r in Hd. }
    simpl. unfold load16 at 1. simpl. unfold load16 in Hy. rewrite Hy. simpl.
    rewrite store32_ok.
    2:{ unfold load32. simpl. rewrite lookup_insert_ne by lia. apply (Hd 1). lia. }
    simpl. set (m2 := Mem _ _).
    destruct (IH (S n) m2) as (m' & Hrun & H16 & Hval & Hfr).
    + intros i Hi. unfold load16. simpl.
      replace (ComplexShortArray.data A + 2 * Z.of_nat (S n) + i)
        with (s + (i + 2)) by lia.
      apply Hs. lia.
    + intros i Hi. unfold load32. simpl.
      replace (ComplexIntArray.data W + 2 * Z.of_nat (S n) + i)
        with (d + (i + 2)) by lia.
      rewrite !lookup_insert_ne by lia. apply Hd. lia.
    + replace (ComplexIntArray.data W + 2 * Z.of_nat (S n)) with (d + 2) in * by lia.
      replace (ComplexShortArray.data A + 2 * Z.of_nat (S n)) with (s + 2) in * by lia.
      exists m'. split; [exact Hrun|]. split; [now rewrite H16|]. split.
      * intros i Hi. destruct (decide (i = 0)) as [->|Hne0];
          [|destruct (decide (i = 1)) as [->|Hne1]].
        -- exists x. rewrite !Z.add_0_r. split; [exact Hx|].
           rewrite Hfr by lia. unfold load32. simpl.
           rewrite lookup_insert_ne by lia. apply lookup_insert_eq.
        -- exists y. split; [exact Hy|].
           rewrite Hfr by lia. unfold load32. simpl. apply lookup_insert_eq.
        -- destruct (Hval (i - 2) ltac:(lia)) as [z [Hz1 Hz2]]. exists z.
           replace (s + 2 + (i - 2)) with (s + i) in Hz1 by lia.
           replace (d + 2 + (i - 2)) with (d + i) in Hz2 by lia.
           split; [exact Hz1|exact Hz2].
      * intros a Ha. rewrite Hfr by lia. unfold load32. simpl.
        rewrite !lookup_insert_ne by lia. reflexivity.
Qed.

(** ** The two bodies of [add] *)

Lemma add_loop_dest (A B D D' : ComplexIntArray.t) :
  ComplexIntArray.data D = ComplexIntArray.data D' →
  ∀ (k n : nat) (m : mem),
    ComplexIntArray.add_loop m A B D n k = ComplexIntArray.add_loop m A B D' n k.
Proof.
  intros Hd. induction k as [|k IH]; intros n m; simpl; [reflexivity|].
  rewrite Hd.
  destruct (ComplexIntArray.re m A n); simpl; [|reflexivity].
  destruct (ComplexIntArray.re m B n); simpl; [|reflexivity].
  destruct (store32 _ _ _) as [m1|]; simpl; [|reflexivity].
  destruct (ComplexIntArray.im m1 A n); simpl; [|reflexivity].
  destruct (ComplexIntArray.im m1 B n); simpl; [|reflexivity].
  destruct (store32 _ _ _) as [m2|]; simpl; [|reflexivity].
  apply IH.
Qed.

Lemma add_bodies_agree (A B D : ComplexIntArray.t) :
  ∀ (k n : nat) (m : mem),
  sums_fit m (ComplexIntArray.data A + 2 * Z.of_nat n)
             (ComplexIntArray.data B + 2 * Z.of_nat n) (k * 2) →
  no_clobber (ComplexIntArray.data A + 2 * Z.of_nat n)
             (ComplexIntArray.data D + 2 * Z.of_nat n) (k * 2) →
  no_clobber (ComplexIntArray.data B + 2 * Z.of_nat n)
             (ComplexIntArray.data D + 2 * Z.of_nat n) (k * 2) →
  arm_add_q31 m (ComplexIntArray.data A + 2 * Z.of_nat n)
                (ComplexIntArray.data B + 2 * Z.of_nat n)
                (ComplexIntArray.data D + 2 * Z.of_nat n) (k * 2)
  = ComplexIntArray.add_loop m A B D n k.
Proof.
  induction k as [|k IH]; intros n m Hfit HA HB; [reflexivity|].
  simpl. unfold ComplexIntArray.re, ComplexIntArray.im.
  set (pa := ComplexIntArray.data A + 2 * Z.of_nat n) in *.
  set (pb := ComplexIntArray.data B + 2 * Z.of_nat n) in *.
  set (pd := ComplexIntArray.data D + 2 * Z.of_nat n) in *.
  unfold no_clobber in HA, HB.
  destruct (load32 m pa) as [x|] eqn:Hx; simpl; [|reflexivity].
  destruct (load32 m pb) as [x'|] eqn:Hx'; simpl; [|reflexivity].
  rewrite (clip_id (x + x')), (wrap32_id (x + x')).
  2,3: apply (Hfit 0); [lia|now rewrite Z.add_0_r..].
  destruct (store32 m pd (x + x')) as [m1|] eqn:Hs1; simpl; [|reflexivity].
  apply store32_inv in Hs1.
  assert (H1 : ∀ a, a ≠ pd → load32 m1 a = load32 m a).
  { intros a Ha. subst m1. unfold load32. simpl. now rewrite lookup_insert_ne. }
  destruct (load32 m1 (pa + 1)) as [y|] eqn:Hy; simpl; [|reflexivity].
  destruct (load32 m1 (pb + 1)) as [y'|] eqn:Hy'; simpl; [|reflexivity].
  rewrite (clip_id (y + y')), (wrap32_id (y + y')).
  2,3: apply (Hfit 1); [lia|rewrite <- H1 by lia; assumption..].
  destruct (store32 m1 (pd + 1) (y + y')) as [m2|] eqn:Hs2; simpl; [|reflexivity].
  apply store32_inv in Hs2.
  assert (H2 : ∀ a, a ≠ pd → a ≠ pd + 1 → load32 m2 a = load32 m a).
  { intros a Ha Ha'. rewrite <- H1 by exact Ha. subst m2. unfold load32. simpl.
    now rewrite lookup_insert_ne. }
  replace (pa + 1 + 1) with (ComplexIntArray.data A + 2 * Z.of_nat (S n)) by lia.
  replace (pb + 1 + 1) with (ComplexIntArray.data B + 2 * Z.of_nat (S n)) by lia.
  replace (pd + 1 + 1) with (ComplexIntArray.data D + 2 * Z.of_nat (S n)) by lia.
  apply IH.
  - intros i u v Hi Hu Hv.
    replace (ComplexIntArray.data A + 2 * Z.of_nat (S n) + i) with (pa + (i + 2)) in Hu by lia.
    replace (ComplexIntArray.data B + 2 * Z.of_nat (S n) + i) with (pb + (i + 2)) in Hv by lia.
    rewrite H2 in Hu by lia. rewrite H2 in Hv by lia.
    apply (Hfit (i + 2)); [lia|assumption..].
  - unfold no_clobber. lia.
  - unfold no_clobber. lia.
Qed.

(** ** Elements and cells *)

Lemma narrow_div x : in_int32 x → int16_t (Z.shiftr x 16) = x / 65536.
Proof.
  intros H. rewrite Z.shiftr_div_pow2 by lia. change (2 ^ 16) with 65536.
  apply wrap16_id. unfold in_int32 in H. unfold in_int16.
  split.
  - apply Z.div_le_lower_bound; lia.
  - apply Z.lt_succ_r. apply Z.div_lt_upper_bound; lia.
Qed.

Lemma readable16_cells m (A : ComplexShortArray.t) :
  cells16 m (ComplexShortArray.data A) (ComplexShortArray.size A * 2) →
  readable16 m A.
Proof.
  intros H i Hi. unfold ComplexShortArray.re, ComplexShortArray.im.
  split; [|rewrite <- Z.add_assoc]; apply H; lia.
Qed.

(** ** Widening and narrowing with the vector primitives *)

(** X16. With [ARM_CORTEX], widening an array of 16-bit values and narrowing the
    result into an array that is the source itself or disjoint from it gives
    an array equal to the source. *)
Lemma copy_roundtrip_hw (m : mem) (W : ComplexIntArray.t)
    (A A2 : ComplexShortArray.t) :
  let n := (ComplexShortArray.size A * 2)%nat in
  let a := ComplexShortArray.data A in
  let a2 := ComplexShortArray.data A2 in
  ComplexIntArray.size W = ComplexShortArray.size A →
  ComplexShortArray.size A2 = ComplexShortArray.size A →
  wf16 m →
  cells16 m a n → cells16 m a2 n → cells32 m (ComplexIntArray.data W) n →
  (a2 = a ∨ a2 + Z.of_nat n <= a ∨ a + Z.of_nat n <= a2) →
  ∃ m1 m2,
    ComplexIntArray.copyFrom ARM_CORTEX m W A = Some m1 ∧
    ComplexIntArray.copyTo ARM_CORTEX m1 W A2 = Some m2 ∧
    ComplexShortArray.equals m2 A2 A = Some true.
Proof.
  intros n a a2 HW H2 Hwf Ha Ha2 Hw Hsep.
  unfold ComplexIntArray.copyFrom, ComplexIntArray.copyTo, ComplexShortArray.getData.
  rewrite HW. fold n a a2.
  destruct (arm_q15_to_q31_spec n m a (ComplexIntArray.data W) Ha Hw)
    as (m1 & R1 & E16 & V1 & F1).
  destruct (arm_q31_to_q15_spec n m1 (ComplexIntArray.data W) a2)
    as (m2 & R2 & E32 & V2 & F2).
  { intros i Hi. destruct (V1 i Hi) as [x [_ Hx]]. rewrite Hx. eauto. }
  { intros i Hi. unfold load16. rewrite E16. apply Ha2, Hi. }
  exists m1, m2. split; [exact R1|]. split; [exact R2|].
  assert (K2 : ∀ j, 0 <= j < Z.of_nat n → load16 m2 (a2 + j) = load16 m (a + j)).
  { intros j Hj. destruct (V2 j Hj) as [y [Hy1 Hy2]].
    destruct (V1 j Hj) as [x [Hx1 Hx2]].
    rewrite Hx2 in Hy1. injection Hy1 as <-.
    rewrite Hy2, Hx1. f_equal.
    rewrite widen_exact by (eapply Hwf; exact Hx1).
    apply narrow_widen. eapply Hwf; exact Hx1. }
  assert (K : ∀ j, 0 <= j < Z.of_nat n → load16 m2 (a + j) = load16 m (a + j)).
  { intros j Hj. destruct Hsep as [Heq|Hdis].
    - rewrite <- Heq at 1. apply K2, Hj.
    - rewrite F2 by lia. unfold load16. now rewrite E16. }
  unfold ComplexShortArray.equals, ComplexShortArray.getSize.
  rewrite H2, Nat.eqb_refl. simpl.
  destruct (equals_loop_spec m2 A2 A (ComplexShortArray.size A) 0) as [b [Hb Hiff]].
  { intros i Hi. unfold ComplexShortArray.re, ComplexShortArray.im. fold a a2.
    rewrite <- !Z.add_assoc. rewrite !K2, !K by lia.
    split; split; apply Ha; lia. }
  rewrite Hb. f_equal. apply Hiff. intros i Hi.
  unfold ComplexShortArray.re, ComplexShortArray.im. fold a a2.
  rewrite <- !Z.add_assoc. rewrite !K2, !K by lia. split; reflexivity.
Qed.

Lemma copyTo_loop_m16 (W : ComplexIntArray.t) (A : ComplexShortArray.t) :
  ∀ (k n : nat) (m m' : mem),
    ComplexIntArray.copyTo_loop m W A n k = Some m' → m16 m' = m16 m.
Proof.
  induction k as [|k IH]; intros n m m' H; simpl in H.
  - now injection H as <-.
  - destruct (ComplexShortArray.re m A n) as [x|]; simpl in H; [|discriminate].
    destruct (store32 m _ _) as [m1|] eqn:S1; simpl in H; [|discriminate].
    destruct (ComplexShortArray.im m1 A n) as [y|]; simpl in H; [|discriminate].
    destruct (store32 m1 _ _) as [m2|] eqn:S2; simpl in H; [|discriminate].
    apply store32_inv in S1, S2. rewrite (IH _ _ _ H). now subst m2 m1.
Qed.

(** C1. On the portable path the round trip does not give back the source.
    [W.copyTo(A2)] never changes a 16-bit cell, so [A2] keeps the contents it
    had.  With A = [{1, 2}] and A2 = [{0, 0}], [W.copyFrom(A)] followed by
    [W.copyTo(A2)] leaves A2 = [{0, 0}], overwrites W with [{0, 0}], and
    [A2.equals(A)] is [false]. *)
Theorem copy_roundtrip_portable :
  (∀ (m m' : mem) (W : ComplexIntArray.t) (A2 : ComplexShortArray.t),
     ComplexIntArray.copyTo PORTABLE m W A2 = Some m' → m16 m' = m16 m) ∧
  (∃ m1 m2,
     ComplexIntArray.copyFrom PORTABLE ex_mem ex_W ex_A = Some m1 ∧
     ComplexIntArray.copyTo PORTABLE m1 ex_W ex_A2 = Some m2 ∧
     ComplexShortArray.re m2 ex_A2 0 = Some 0 ∧
     ComplexShortArray.im m2 ex_A2 0 = Some 0 ∧
     ComplexIntArray.re m2 ex_W 0 = Some 0 ∧
     ComplexIntArray.im m2 ex_W 0 = Some 0 ∧
     ComplexShortArray.equals m2 ex_A2 ex_A = Some false).
Proof.
  split.
  - intros m m' W A2 H. apply (copyTo_loop_m16 W A2 _ _ _ _ H).
  - eexists _, _. split; [vm_compute; reflexivity|].
    split; [vm_compute; reflexivity|]. vm_compute. repeat split.
Qed.

Lemma copy_roundtrip_portable_witness :
  m16 (mem_of [(100, 1); (101, 2); (200, 0); (201, 0)]
              [(300, 0); (301, 0); (400, 5); (401, 7); (500, 0); (501, 0)])
  = m16 ex_mem.
Proof.
  destruct copy_roundtrip_portable as [H _].
  apply (H ex_mem _ ex_W ex_A2). vm_compute. reflexivity.
Defined.

(** ** Stores given by their cells *)

Lemma wf16_mem_of l16 l32 :
  Forall (λ p : Z * Z, in_int16 p.2) l16 → wf16 (mem_of l16 l32).
Proof.
  intros H a v Hv. unfold load16, mem_of in Hv. simpl in Hv.
  apply elem_of_list_to_map_2 in Hv.
  rewrite Forall_forall in H. apply (H (a, v)), Hv.
Qed.

Lemma wf32_mem_of l16 l32 :
  Forall (λ p : Z * Z, in_int32 p.2) l32 → wf32 (mem_of l16 l32).
Proof.
  intros H a v Hv. unfold load32, mem_of in Hv. simpl in Hv.
  apply elem_of_list_to_map_2 in Hv.
  rewrite Forall_forall in H. apply (H (a, v)), Hv.
Qed.

(** ** [copyFrom] and [copyTo], body by body *)

Lemma copyFrom_hw_spec (m : mem) (W : ComplexIntArray.t) (A : ComplexShortArray.t) :
  ComplexIntArray.size W = ComplexShortArray.size A →
  wf16 m →
  cells16 m (ComplexShortArray.data A) (ComplexShortArray.size A * 2) →
  cells32 m (ComplexIntArray.data W) (ComplexShortArray.size A * 2) →
  ∃ m', ComplexIntArray.copyFrom ARM_CORTEX m W A = Some m' ∧ m16 m' = m16 m ∧
    ∀ i : nat, (i < ComplexShortArray.size A)%nat →
      ∃ x y, ComplexShortArray.re m A i = Some x ∧
             ComplexShortArray.im m A i = Some y ∧
             ComplexIntArray.re m' W i = Some (x * 65536) ∧
             ComplexIntArray.im m' W i = Some (y * 65536).
Proof.
  intros HW Hwf Ha Hw. unfold ComplexIntArray.copyFrom, ComplexShortArray.getData.
  rewrite HW.
  destruct (arm_q15_to_q31_spec _ m _ _ Ha Hw) as (m' & R & E & V & _).
  exists m'. split; [exact R|]. split; [exact E|]. intros i Hi.
  destruct (V (2 * Z.of_nat i) ltac:(lia)) as [x [Hx1 Hx2]].
  destruct (V (2 * Z.of_nat i + 1) ltac:(lia)) as [y [Hy1 Hy2]].
  exists x, y.
  unfold ComplexShortArray.re, ComplexShortArray.im, ComplexIntArray.re, ComplexIntArray.im.
  rewrite <- !Z.add_assoc.
  rewrite Hx1, Hy1, Hx2, Hy2, !widen_exact by (eapply Hwf; eassumption).
  repeat split.
Qed.

Lemma copyTo_hw_spec (m : mem) (W : ComplexIntArray.t) (A : ComplexShortArray.t) :
  ComplexIntArray.size W = ComplexShortArray.size A →
  wf32 m →
  cells16 m (ComplexShortArray.data A) (ComplexShortArray.size A * 2) →
  cells32 m (ComplexIntArray.data W) (ComplexShortArray.size A * 2) →
  ∃ m', ComplexIntArray.copyTo ARM_CORTEX m W A = Some m' ∧ m32 m' = m32 m ∧
    ∀ i : nat, (i < ComplexShortArray.size A)%nat →
      ∃ x y, ComplexIntArray.re m W i = Some x ∧
             ComplexIntArray.im m W i = Some y ∧
             ComplexShortArray.re m' A i = Some (x / 65536) ∧
             ComplexShortArray.im m' A i = Some (y / 65536).
Proof.
  intros HW Hwf Ha Hw. unfold ComplexIntArray.copyTo, ComplexShortArray.getData.
  rewrite HW.
  destruct (arm_q31_to_q15_spec _ m _ _ Hw Ha) as (m' & R & E & V & _).
  exists m'. split; [exact R|]. split; [exact E|]. intros i Hi.
  destruct (V (2 * Z.of_nat i) ltac:(lia)) as [x [Hx1 Hx2]].
  destruct (V (2 * Z.of_nat i + 1) ltac:(lia)) as [y [Hy1 Hy2]].
  exists x, y.
  unfold ComplexShortArray.re, ComplexShortArray.im, ComplexIntArray.re, ComplexIntArray.im.
  rewrite <- !Z.add_assoc.
  rewrite Hx1, Hy1, Hx2, Hy2, !narrow_div by (eapply Hwf; eassumption).
  repeat split.
Qed.

Lemma copyFrom_portable_spec (m : mem) (W : ComplexIntArray.t) (A : ComplexShortArray.t) :
  ComplexIntArray.size W = ComplexShortArray.size A →
  cells16 m (ComplexShortArray.data A) (ComplexShortArray.size A * 2) →
  cells32 m (ComplexIntArray.data W) (ComplexShortArray.size A * 2) →
  ∃ m', ComplexIntArray.copyFrom PORTABLE m W A = Some m' ∧ m16 m' = m16 m ∧
    ∀ i : nat, (i < ComplexShortArray.size A)%nat →
      ∃ x y, ComplexShortArray.re m A i = Some x ∧
             ComplexShortArray.im m A i = Some y ∧
             ComplexIntArray.re m' W i = Some x ∧
             ComplexIntArray.im m' W i = Some y.
Proof.
  intros HW Ha Hw. unfold ComplexIntArray.copyFrom. rewrite HW.
  destruct (copyFrom_loop_spec W A (ComplexShortArray.size A) 0 m)
    as (m' & R & E & V & _).
  { now rewrite Z.add_0_r. }
  { now rewrite Z.add_0_r. }
  change (2 * Z.of_nat 0) with 0 in V. rewrite !Z.add_0_r in V.
  exists m'. split; [exact R|]. split; [exact E|]. intros i Hi.
  destruct (V (2 * Z.of_nat i) ltac:(lia)) as [x [Hx1 Hx2]].
  destruct (V (2 * Z.of_nat i + 1) ltac:(lia)) as [y [Hy1 Hy2]].
  exists x, y.
  unfold ComplexShortArray.re, ComplexShortArray.im, ComplexIntArray.re, ComplexIntArray.im.
  rewrite <- !Z.add_assoc. rewrite Hx1, Hy1, Hx2, Hy2. repeat split.
Qed.

(** C2 (amended). With [ARM_CORTEX], [W.copyFrom(A)] stores each [re] and
    [im] of [A] scaled by 2^16 in [W], and [W.copyTo(A)] stores each 32-bit
    [re] and [im] of [W] without its lower 16 bits (the quotient by 2^16) in
    [A].  On the portable path [W.copyFrom(A)] stores each [re] and [im] of
    [A] in [W] unscaled. *)
Theorem copy_widen_narrow (m : mem) (W : ComplexIntArray.t)
    (A : ComplexShortArray.t) :
  ComplexIntArray.size W = ComplexShortArray.size A →
  wf16 m → wf32 m →
  cells16 m (ComplexShortArray.data A) (ComplexShortArray.size A * 2) →
  cells32 m (ComplexIntArray.data W) (ComplexShortArray.size A * 2) →
  (∃ m', ComplexIntArray.copyFrom ARM_CORTEX m W A = Some m' ∧ m16 m' = m16 m ∧
     ∀ i : nat, (i < ComplexShortArray.size A)%nat →
       ∃ x y, ComplexShortArray.re m A i = Some x ∧
              ComplexShortArray.im m A i = Some y ∧
              ComplexIntArray.re m' W i = Some (x * 65536) ∧
              ComplexIntArray.im m' W i = Some (y * 65536)) ∧
  (∃ m', ComplexIntArray.copyTo ARM_CORTEX m W A = Some m' ∧ m32 m' = m32 m ∧
     ∀ i : nat, (i < ComplexShortArray.size A)%nat →
       ∃ x y, ComplexIntArray.re m W i = Some x ∧
              ComplexIntArray.im m W i = Some y ∧
              ComplexShortArray.re m' A i = Some (x / 65536) ∧
              ComplexShortArray.im m' A i = Some (y / 65536)) ∧
  (∃ m', ComplexIntArray.copyFrom PORTABLE m W A = Some m' ∧ m16 m' = m16 m ∧
     ∀ i : nat, (i < ComplexShortArray.size A)%nat →
       ∃ x y, ComplexShortArray.re m A i = Some x ∧
              ComplexShortArray.im m A i = Some y ∧
              ComplexIntArray.re m' W i = Some x ∧
              ComplexIntArray.im m' W i = Some y).
Proof.
  intros HW H16 H32 Ha Hw. split; [|split].
  - now apply copyFrom_hw_spec.
  - now apply copyTo_hw_spec.
  - now apply copyFrom_portable_spec.
Qed.

Lemma ex_mem_wf16 : wf16 ex_mem.
Proof.
  apply wf16_mem_of. repeat constructor; unfold in_int16; simpl; lia.
Defined.

Lemma ex_mem_wf32 : wf32 ex_mem.
Proof.
  apply wf32_mem_of. repeat constructor; unfold in_int32; simpl; lia.
Defined.

Lemma ex_mem_cells16 : cells16 ex_mem 100 2.
Proof.
  intros i Hi. assert (H : i = 0 ∨ i = 1) by lia.
  destruct H as [-> | ->]; vm_compute; eauto.
Defined.

Lemma ex_mem_cells32 : cells32 ex_mem 300 2.
Proof.
  intros i Hi. assert (H : i = 0 ∨ i = 1) by lia.
  destruct H as [-> | ->]; vm_compute; eauto.
Defined.

Lemma copy_widen_narrow_witness :
  (∃ m', ComplexIntArray.copyFrom ARM_CORTEX ex_mem ex_W ex_A = Some m' ∧
     m16 m' = m16 ex_mem ∧
     ∀ i : nat, (i < 1)%nat →
       ∃ x y, ComplexShortArray.re ex_mem ex_A i = Some x ∧
              ComplexShortArray.im ex_mem ex_A i = Some y ∧
              ComplexIntArray.re m' ex_W i = Some (x * 65536) ∧
              ComplexIntArray.im m' ex_W i = Some (y * 65536)) ∧
  (∃ m', ComplexIntArray.copyTo ARM_CORTEX ex_mem ex_W ex_A = Some m' ∧
     m32 m' = m32 ex_mem ∧
     ∀ i : nat, (i < 1)%nat →
       ∃ x y, ComplexIntArray.re ex_mem ex_W i = Some x ∧
              ComplexIntArray.im ex_mem ex_W i = Some y ∧
              ComplexShortArray.re m' ex_A i = Some (x / 65536) ∧
              ComplexShortArray.im m' ex_A i = Some (y / 65536)) ∧
  (∃ m', ComplexIntArray.copyFrom PORTABLE ex_mem ex_W ex_A = Some m' ∧
     m16 m' = m16 ex_mem ∧
     ∀ i : nat, (i < 1)%nat →
       ∃ x y, ComplexShortArray.re ex_mem ex_A i = Some x ∧
              ComplexShortArray.im ex_mem ex_A i = Some y ∧
              ComplexIntArray.re m' ex_W i = Some x ∧
              ComplexIntArray.im m' ex_W i = Some y).
Proof.
  exact (copy_widen_narrow ex_mem ex_W ex_A eq_refl ex_mem_wf16 ex_mem_wf32
           ex_mem_cells16 ex_mem_cells32).
Defined.

(** Counterexample to C2 as stated, on the portable path: with A = [{1, 2}] the
    element of W after [W.copyFrom(A)] has [re = 1], not [1 * 2^16]. *)
Lemma copyFrom_scaling_counterexample :
  ¬ (∀ (c : config) (m m' : mem) (W : ComplexIntArray.t) (A : ComplexShortArray.t),
       ComplexIntArray.size W = ComplexShortArray.size A →
       ComplexIntArray.copyFrom c m W A = Some m' →
       ∀ (i : nat) (x : Z), (i < ComplexShortArray.size A)%nat →
         ComplexShortArray.re m A i = Some x →
         ComplexIntArray.re m' W i = Some (x * 65536)).
Proof.
  intros H.
  destruct (ComplexIntArray.copyFrom PORTABLE ex_mem ex_W ex_A) as [m'|] eqn:E;
    [|vm_compute in E; discriminate].
  specialize (H PORTABLE ex_mem m' ex_W ex_A eq_refl E 0%nat 1 ltac:(simpl; lia) eq_refl).
  vm_compute in E. injection E as <-. vm_compute in H. discriminate.
Qed.

(** ** The two paths side by side *)

(** C3 (amended).  [add]: the body with the vector primitive and the
    portable loop return the same store whenever no elementwise sum leaves
    the 32-bit range and the destination does not overwrite operand cells
    that are still to be read (it is an operand itself, or lies apart).
    [copyFrom]: both bodies succeed, and each field written with
    [ARM_CORTEX] is the field written by the portable loop times 2^16. *)
Theorem paths_consistent (m : mem) (A B D W : ComplexIntArray.t)
    (S : ComplexShortArray.t) :
  (sums_fit m (ComplexIntArray.data A) (ComplexIntArray.data B)
     (ComplexIntArray.size A * 2) →
   no_clobber (ComplexIntArray.data A) (ComplexIntArray.data D)
     (ComplexIntArray.size A * 2) →
   no_clobber (ComplexIntArray.data B) (ComplexIntArray.data D)
     (ComplexIntArray.size A * 2) →
   ComplexIntArray.add ARM_CORTEX m A B D = ComplexIntArray.add PORTABLE m A B D) ∧
  (ComplexIntArray.size W = ComplexShortArray.size S →
   wf16 m →
   cells16 m (ComplexShortArray.data S) (ComplexShortArray.size S * 2) →
   cells32 m (ComplexIntArray.data W) (ComplexShortArray.size S * 2) →
   ∃ m_hw m_sw,
     ComplexIntArray.copyFrom ARM_CORTEX m W S = Some m_hw ∧
     ComplexIntArray.copyFrom PORTABLE m W S = Some m_sw ∧
     m16 m_hw = m16 m_sw ∧
     ∀ i : nat, (i < ComplexShortArray.size S)%nat →
       ∃ x y, ComplexIntArray.re m_sw W i = Some x ∧
              ComplexIntArray.im m_sw W i = Some y ∧
              ComplexIntArray.re m_hw W i = Some (x * 65536) ∧
              ComplexIntArray.im m_hw W i = Some (y * 65536)).
Proof.
  split.
  - intros Hfit HA HB. unfold ComplexIntArray.add, ComplexIntArray.getData.
    pose proof (add_bodies_agree A B D (ComplexIntArray.size A) 0 m) as H.
    change (2 * Z.of_nat 0) with 0 in H. rewrite !Z.add_0_r in H.
    apply H; assumption.
  - intros HW Hwf Hs Hw.
    destruct (copyFrom_hw_spec m W S HW Hwf Hs Hw) as (m_hw & R1 & E1 & V1).
    destruct (copyFrom_portable_spec m W S HW Hs Hw) as (m_sw & R2 & E2 & V2).
    exists m_hw, m_sw. split; [exact R1|]. split; [exact R2|].
    split; [now rewrite E1, E2|]. intros i Hi.
    destruct (V1 i Hi) as (x & y & Hx & Hy & Hx1 & Hy1).
    destruct (V2 i Hi) as (x' & y' & Hx' & Hy' & Hx2 & Hy2).
    exists x, y. rewrite Hx in Hx'. rewrite Hy in Hy'.
    injection Hx' as <-. injection Hy' as <-. repeat split; assumption.
Qed.

Lemma ex_mem_sums_fit : sums_fit ex_mem 300 400 2.
Proof.
  intros i x y Hi. assert (H : i = 0 ∨ i = 1) by lia.
  destruct H as [-> | ->]; intros Hx Hy; vm_compute in Hx, Hy;
    injection Hx as <-; injection Hy as <-; unfold in_int32; lia.
Defined.

Lemma paths_consistent_witness :
  ComplexIntArray.add ARM_CORTEX ex_mem ex_W ex_B ex_D
  = ComplexIntArray.add PORTABLE ex_mem ex_W ex_B ex_D ∧
  ∃ m_hw m_sw,
    ComplexIntArray.copyFrom ARM_CORTEX ex_mem ex_W ex_A = Some m_hw ∧
    ComplexIntArray.copyFrom PORTABLE ex_mem ex_W ex_A = Some m_sw ∧
    m16 m_hw = m16 m_sw ∧
    ∀ i : nat, (i < 1)%nat →
      ∃ x y, ComplexIntArray.re m_sw ex_W i = Some x ∧
             ComplexIntArray.im m_sw ex_W i = Some y ∧
             ComplexIntArray.re m_hw ex_W i = Some (x * 65536) ∧
             ComplexIntArray.im m_hw ex_W i = Some (y * 65536).
Proof.
  destruct (paths_consistent ex_mem ex_W ex_B ex_D ex_W ex_A) as [Hadd Hcopy].
  split.
  - apply Hadd; [exact ex_mem_sums_fit | right; simpl; lia | right; simpl; lia].
  - exact (Hcopy eq_refl ex_mem_wf16 ex_mem_cells16 ex_mem_cells32).
Defined.

(** Counterexample to C3 as stated, for [add]: for [{2147483647, 0}] plus [{1, 0}] the
    vector primitive saturates to 2147483647 and the portable loop wraps to
    -2147483648, so the two stores differ. *)
Lemma add_paths_counterexample :
  ¬ (∀ (m : mem) (A B D : ComplexIntArray.t),
       ComplexIntArray.size B = ComplexIntArray.size A →
       (ComplexIntArray.size A <= ComplexIntArray.size D)%nat →
       ComplexIntArray.add ARM_CORTEX m A B D = ComplexIntArray.add PORTABLE m A B D).
Proof.
  intros H.
  specialize (H ex_mem_max ex_W ex_B ex_D eq_refl (le_n 1)).
  assert (K : (m' ← ComplexIntArray.add ARM_CORTEX ex_mem_max ex_W ex_B ex_D;
               ComplexIntArray.re m' ex_D 0) = Some 2147483647)
    by (vm_compute; reflexivity).
  rewrite H in K. vm_compute in K. discriminate.
Qed.

(** ** In-place [add] *)

(** C9. [A.add(B)] is [A.add(B, A)]: for every destination handle [D] on
    the storage of [A], [A.add(B, D)] and [A.add(B)] end in the same store,
    on both paths. *)
Theorem add_inplace_alias (c : config) (m : mem) (A B D : ComplexIntArray.t) :
  ComplexIntArray.data D = ComplexIntArray.data A →
  ComplexIntArray.add c m A B D = ComplexIntArray.add_inplace c m A B.
Proof.
  intros HD. unfold ComplexIntArray.add_inplace, ComplexIntArray.add,
    ComplexIntArray.getData.
  destruct c.
  - now rewrite HD.
  - now apply add_loop_dest.
Qed.

Lemma add_inplace_alias_witness :
  ComplexIntArray.add PORTABLE ex_mem ex_W ex_B (ComplexIntArray.Build 300 4)
  = ComplexIntArray.add_inplace PORTABLE ex_mem ex_W ex_B.
Proof.
  apply (add_inplace_alias PORTABLE ex_mem ex_W ex_B (ComplexIntArray.Build 300 4)).
  reflexivity.
Defined.

(** ** Default-constructed arrays *)

(** C10. A default-constructed array of either class has size 0 and a null
    data pointer, and [getSize] is 0.  [equals] of two default-constructed
    arrays is [true], and [equals] of a default-constructed array and an
    array of nonzero size is [false]; both answers are given in every store,
    among them the empty store, in which every read faults: no element is
    read. *)
Theorem default_constructed :
  (ComplexShortArray.size ComplexShortArray.default = 0%nat ∧
   ComplexShortArray.data ComplexShortArray.default = NULL ∧
   ComplexShortArray.getSize ComplexShortArray.default = 0%nat) ∧
  (ComplexIntArray.size ComplexIntArray.default = 0%nat ∧
   ComplexIntArray.data ComplexIntArray.default = NULL ∧
   ComplexIntArray.getSize ComplexIntArray.default = 0%nat) ∧
  (∀ m : mem,
     ComplexShortArray.equals m ComplexShortArray.default ComplexShortArray.default
     = Some true) ∧
  (∀ (m : mem) (B : ComplexShortArray.t),
     ComplexShortArray.size B ≠ 0%nat →
     ComplexShortArray.equals m ComplexShortArray.default B = Some false ∧
     ComplexShortArray.equals m B ComplexShortArray.default = Some false) ∧
  (∀ a : Z, load16 empty_mem a = None) ∧
  ComplexShortArray.equals empty_mem ComplexShortArray.default ComplexShortArray.default
  = Some true ∧
  (∀ B : ComplexShortArray.t,
     ComplexShortArray.size B ≠ 0%nat →
     ComplexShortArray.equals empty_mem ComplexShortArray.default B = Some false).
Proof.
  assert (K : ∀ (m : mem) (B : ComplexShortArray.t),
     ComplexShortArray.size B ≠ 0%nat →
     ComplexShortArray.equals m ComplexShortArray.default B = Some false ∧
     ComplexShortArray.equals m B ComplexShortArray.default = Some false).
  { intros m B HB. unfold ComplexShortArray.equals, ComplexShortArray.getSize.
    simpl. destruct (ComplexShortArray.size B) as [|n]; [congruence|].
    split; reflexivity. }
  split; [repeat split|]. split; [repeat split|].
  split; [intros m; reflexivity|]. split; [exact K|].
  split; [intros a; apply lookup_empty|]. split; [reflexivity|].
  intros B HB. apply (K empty_mem B HB).
Qed.

Lemma default_constructed_witness :
  ComplexShortArray.equals ex_mem ComplexShortArray.default ex_A = Some false ∧
  ComplexShortArray.equals ex_mem ex_A ComplexShortArray.default = Some false ∧
  ComplexShortArray.equals empty_mem ComplexShortArray.default ex_A = Some false.
Proof.
  destruct default_constructed as (_ & _ & _ & H & _ & _ & H').
  destruct (H ex_mem ex_A) as [H1 H2]; [simpl; discriminate|].
  split; [exact H1|]. split; [exact H2|].
  apply (H' ex_A). simpl; discriminate.
Defined.

(** ** [equals] on a sample store *)

Lemma ex_mem_readable_A : readable16 ex_mem ex_A.
Proof. apply readable16_cells. exact ex_mem_cells16. Defined.

Lemma ex_mem_readable_A2 : readable16 ex_mem ex_A2.
Proof.
  apply readable16_cells. intros i Hi. assert (H : i = 0 ∨ i = 1) by (simpl in Hi; lia).
  destruct H as [-> | ->]; vm_compute; eauto.
Defined.

Lemma equals_spec_witness :
  ComplexShortArray.equals ex_mem ex_A (ComplexShortArray.Build 100 2) = Some false ∧
  ∃ b, ComplexShortArray.equals ex_mem ex_A ex_A2 = Some b ∧
       (b = true ↔
        ∀ i : nat, (i < 1)%nat →
          ComplexShortArray.re ex_mem ex_A i = ComplexShortArray.re ex_mem ex_A2 i ∧
          ComplexShortArray.im ex_mem ex_A i = ComplexShortArray.im ex_mem ex_A2 i).
Proof.
  split.
  - apply (equals_spec ex_mem ex_A (ComplexShortArray.Build 100 2)).
    simpl. discriminate.
  - apply (equals_spec ex_mem ex_A ex_A2);
      [reflexivity | exact ex_mem_readable_A | exact ex_mem_readable_A2].
Defined.

(** ** Truncation toward zero *)

Lemma Rtrunc_nonneg x z :
  (0 <= x)%R → (IZR z <= x < IZR z + 1)%R → Rtrunc x = z.
Proof.
  intros Hx Hz. unfold Rtrunc. destruct (Rle_dec 0 x) as [_|Hn]; [|contradiction].
  symmetry. apply Int_part_spec. lra.
Qed.

Lemma Rtrunc_neg x z :
  (x < 0)%R → (IZR z - 1 < x <= IZR z)%R → Rtrunc x = z.
Proof.
  intros Hx Hz. unfold Rtrunc. destruct (Rle_dec 0 x) as [Hp|_]; [lra|].
  rewrite <- (Z.opp_involutive z) at 1. f_equal.
  symmetry. apply Int_part_spec. rewrite opp_IZR. lra.
Qed.

Lemma Rtrunc_toward_zero x : toward_zero x (Rtrunc x).
Proof.
  unfold toward_zero, Rtrunc. destruct (Rle_dec 0 x) as [Hp|Hn].
  - split; [|lra]. intros _. destruct (base_Int_part x). lra.
  - split; [lra|]. intros _. destruct (base_Int_part (- x)).
    rewrite opp_IZR. lra.
Qed.

Lemma toward_zero_unique x z : toward_zero x z → Rtrunc x = z.
Proof.
  intros [Hp Hn]. destruct (Rle_dec 0 x) as [H|H].
  - apply Rtrunc_nonneg; auto.
  - apply Rtrunc_neg; [lra|]. apply Hn. lra.
Qed.

(** * Further properties *)

(** ** [equals] as a relation *)

Lemma equals_loop_true_iff m (A B : ComplexShortArray.t) : ∀ (k n : nat),
  ComplexShortArray.equals_loop m A B n k = Some true ↔
  ∀ i : nat, (n <= i < n + k)%nat →
    ∃ x y, ComplexShortArray.re m A i = Some x ∧ ComplexShortArray.re m B i = Some x ∧
           ComplexShortArray.im m A i = Some y ∧ ComplexShortArray.im m B i = Some y.
Proof.
  induction k as [|k IH]; intros n; simpl.
  - split; [intros _ i Hi; lia|reflexivity].
  - split.
    + intros H.
      destruct (ComplexShortArray.re m A n) as [x|] eqn:Hx; simpl in H; [|discriminate].
      destruct (ComplexShortArray.re m B n) as [x'|] eqn:Hx'; simpl in H; [|discriminate].
      destruct (Z.eqb_spec x x') as [->|Hne]; simpl in H; [|discriminate].
      destruct (ComplexShortArray.im m A n) as [y|] eqn:Hy; simpl in H; [|discriminate].
      destruct (ComplexShortArray.im m B n) as [y'|] eqn:Hy'; simpl in H; [|discriminate].
      destruct (Z.eqb_spec y y') as [->|Hne]; simpl in H; [|discriminate].
      intros i Hi. destruct (decide (i = n)) as [->|Hin].
      * exists x', y'. auto.
      * apply (proj1 (IH (S n)) H). lia.
    + intros H. destruct (H n ltac:(lia)) as (x & y & Hx & Hx' & Hy & Hy').
      rewrite Hx, Hx'. simpl. rewrite Z.eqb_refl. simpl.
      rewrite Hy, Hy'. simpl. rewrite Z.eqb_refl. simpl.
      apply IH. intros i Hi. apply H. lia.
Qed.

Lemma equals_true_iff m (A B : ComplexShortArray.t) :
  ComplexShortArray.equals m A B = Some true ↔
  ComplexShortArray.size A = ComplexShortArray.size B ∧
  ∀ i : nat, (i < ComplexShortArray.size A)%nat →
    ∃ x y, ComplexShortArray.re m A i = Some x ∧ ComplexShortArray.re m B i = Some x ∧
           ComplexShortArray.im m A i = Some y ∧ ComplexShortArray.im m B i = Some y.
Proof.
  unfold ComplexShortArray.equals, ComplexShortArray.getSize.
  destruct (Nat.eqb_spec (ComplexShortArray.size A) (ComplexShortArray.size B)) as [E|E];
    simpl.
  - rewrite equals_loop_true_iff. split.
    + intros H. split; [exact E|]. intros i Hi. apply H. lia.
    + intros [_ H] i Hi. apply H. lia.
  - split; [discriminate|]. intros [E' _]. contradiction.
Qed.

Lemma equals_loop_sym m (A B : ComplexShortArray.t) : ∀ (k n : nat),
  ComplexShortArray.equals_loop m A B n k = ComplexShortArray.equals_loop m B A n k.
Proof.
  induction k as [|k IH]; intros n; simpl; [reflexivity|].
  destruct (ComplexShortArray.re m A n) as [x|], (ComplexShortArray.re m B n) as [x'|];
    simpl; try reflexivity.
  rewrite (Z.eqb_sym x' x). destruct (x =? x'); simpl; [|reflexivity].
  destruct (ComplexShortArray.im m A n) as [y|], (ComplexShortArray.im m B n) as [y'|];
    simpl; try reflexivity.
  rewrite (Z.eqb_sym y' y). destruct (y =? y'); simpl; [|reflexivity].
  apply IH.
Qed.

(** X1. [equals] is an equivalence on arrays whose storage is present: an
    array equals itself, the answer (or the fault) does not depend on which
    of the two arrays is the receiver, and [true] is transitive. *)
Theorem equals_equivalence (m : mem) (A B C : ComplexShortArray.t) :
  (readable16 m A → ComplexShortArray.equals m A A = Some true) ∧
  ComplexShortArray.equals m A B = ComplexShortArray.equals m B A ∧
  (ComplexShortArray.equals m A B = Some true →
   ComplexShortArray.equals m B C = Some true →
   ComplexShortArray.equals m A C = Some true).
Proof.
  split; [|split].
  - intros HA. apply equals_true_iff. split; [reflexivity|]. intros i Hi.
    destruct (HA i Hi) as [[x Hx] [y Hy]]. exists x, y. auto.
  - unfold ComplexShortArray.equals, ComplexShortArray.getSize.
    rewrite (Nat.eqb_sym (ComplexShortArray.size B)).
    destruct (Nat.eqb_spec (ComplexShortArray.size A) (ComplexShortArray.size B)) as [E|E];
      simpl; [|reflexivity].
    rewrite E. apply equals_loop_sym.
  - rewrite !equals_true_iff. intros [E1 H1] [E2 H2]. split; [congruence|].
    intros i Hi. destruct (H1 i Hi) as (x & y & Hx & Hx' & Hy & Hy').
    destruct (H2 i ltac:(lia)) as (x2 & y2 & Gx & Gx' & Gy & Gy').
    exists x, y. rewrite Hx' in Gx. rewrite Hy' in Gy.
    injection Gx as <-. injection Gy as <-. auto.
Qed.

Lemma equals_equivalence_witness :
  ComplexShortArray.equals ex_mem ex_A ex_A = Some true ∧
  ComplexShortArray.equals ex_mem ex_A3 ex_A = Some true ∧
  ComplexShortArray.equals ex_mem ex_A ex_A = Some true.
Proof.
  destruct (equals_equivalence ex_mem ex_A ex_A3 ex_A) as (Hr & Hs & Ht).
  split; [exact (Hr ex_mem_readable_A)|].
  split; [rewrite <- Hs; reflexivity|].
  apply Ht; reflexivity.
Defined.

Lemma equals_loop_mismatch m (A B : ComplexShortArray.t) : ∀ (j n k : nat),
  (∀ i : nat, (n <= i < n + j)%nat →
     ∃ x y, ComplexShortArray.re m A i = Some x ∧ ComplexShortArray.re m B i = Some x ∧
            ComplexShortArray.im m A i = Some y ∧ ComplexShortArray.im m B i = Some y) →
  (∃ x x', ComplexShortArray.re m A (n + j) = Some x ∧
           ComplexShortArray.re m B (n + j) = Some x' ∧ x ≠ x') →
  ComplexShortArray.equals_loop m A B n (j + S k) = Some false.
Proof.
  induction j as [|j IH]; intros n k Hpre (x & x' & Hx & Hx' & Hne).
  - simpl. rewrite Nat.add_0_r in Hx, Hx'. rewrite Hx, Hx'. simpl.
    destruct (Z.eqb_spec x x'); [contradiction|reflexivity].
  - simpl. destruct (Hpre n ltac:(lia)) as (u & w & Hu & Hu' & Hw & Hw').
    rewrite Hu, Hu'. simpl. rewrite Z.eqb_refl. simpl.
    rewrite Hw, Hw'. simpl. rewrite Z.eqb_refl. simpl.
    apply IH.
    + intros i Hi. apply Hpre. lia.
    + exists x, x'. replace (S n + j)%nat with (n + S j)%nat by lia. auto.
Qed.

(** X2. [equals] stops at the first difference: when the sizes agree, the
    elements before index [j] agree and the real parts at [j] differ,
    the answer is [false], whether or not the imaginary part at [j] and the
    elements after [j] can be read. *)
Theorem equals_first_mismatch (m : mem) (A B : ComplexShortArray.t) (j : nat) :
  ComplexShortArray.size A = ComplexShortArray.size B →
  (j < ComplexShortArray.size A)%nat →
  (∀ i : nat, (i < j)%nat →
     ∃ x y, ComplexShortArray.re m A i = Some x ∧ ComplexShortArray.re m B i = Some x ∧
            ComplexShortArray.im m A i = Some y ∧ ComplexShortArray.im m B i = Some y) →
  (∃ x x', ComplexShortArray.re m A j = Some x ∧
           ComplexShortArray.re m B j = Some x' ∧ x ≠ x') →
  ComplexShortArray.equals m A B = Some false.
Proof.
  intros E Hj Hpre Hmis. unfold ComplexShortArray.equals, ComplexShortArray.getSize.
  rewrite <- E, Nat.eqb_refl. simpl.
  replace (ComplexShortArray.size A) with (j + S (ComplexShortArray.size A - S j))%nat by lia.
  apply equals_loop_mismatch.
  - intros i Hi. apply Hpre. lia.
  - exact Hmis.
Qed.

Lemma equals_first_mismatch_witness :
  ComplexShortArray.equals ex_mem (ComplexShortArray.Build 100 5)
    (ComplexShortArray.Build 200 5) = Some false.
Proof.
  apply (equals_first_mismatch ex_mem (ComplexShortArray.Build 100 5)
           (ComplexShortArray.Build 200 5) 0).
  - reflexivity.
  - simpl. lia.
  - intros i Hi. lia.
  - exists 1, 0. split; [reflexivity|]. split; [reflexivity|]. discriminate.
Defined.

(** ** Both bodies of [add] as one loop over cells *)

Lemma arm_add_q31_cells : ∀ (n : nat) (m : mem) (pa pb pd : Z),
  arm_add_q31 m pa pb pd n = cell_sum_loop clip_q63_to_q31 m pa pb pd n.
Proof.
  induction n as [|n IH]; intros m pa pb pd; simpl; [reflexivity|].
  destruct (load32 m pa); simpl; [|reflexivity].
  destruct (load32 m pb); simpl; [|reflexivity].
  destruct (store32 _ _ _); simpl; [|reflexivity].
  apply IH.
Qed.

Lemma add_loop_cells (A B D : ComplexIntArray.t) : ∀ (k n : nat) (m : mem),
  ComplexIntArray.add_loop m A B D n k
  = cell_sum_loop int32_t m (ComplexIntArray.data A + 2 * Z.of_nat n)
      (ComplexIntArray.data B + 2 * Z.of_nat n)
      (ComplexIntArray.data D + 2 * Z.of_nat n) (k * 2).
Proof.
  induction k as [|k IH]; intros n m; simpl; [reflexivity|].
  unfold ComplexIntArray.re, ComplexIntArray.im.
  destruct (load32 m _); simpl; [|reflexivity].
  destruct (load32 m _); simpl; [|reflexivity].
  destruct (store32 _ _ _) as [m1|]; simpl; [|reflexivity].
  destruct (load32 m1 _); simpl; [|reflexivity].
  destruct (load32 m1 _); simpl; [|reflexivity].
  destruct (store32 _ _ _) as [m2|]; simpl; [|reflexivity].
  rewrite IH. f_equal; lia.
Qed.

Lemma add_cells (c : config) (m : mem) (A B D : ComplexIntArray.t) :
  ComplexIntArray.add c m A B D
  = cell_sum_loop (sum_conv c) m (ComplexIntArray.data A) (ComplexIntArray.data B)
      (ComplexIntArray.data D) (ComplexIntArray.size A * 2).
Proof.
  unfold ComplexIntArray.add, ComplexIntArray.getData. destruct c; simpl sum_conv.
  - apply arm_add_q31_cells.
  - rewrite add_loop_cells. change (2 * Z.of_nat 0) with 0. now rewrite !Z.add_0_r.
Qed.

Lemma sum_conv_range c z : in_int32 (sum_conv c z).
Proof.
  destruct c; simpl.
  - unfold clip_q63_to_q31, in_int32. lia.
  - unfold int32_t, wrap, in_int32.
    change (2 ^ (32 - 1)) with 2147483648. change (2 ^ 32) with 4294967296.
    pose proof (Z.mod_pos_bound (z + 2147483648) 4294967296 ltac:(lia)). lia.
Qed.

Lemma cell_sum_loop_comm f : ∀ (n : nat) (m : mem) (pa pb pd : Z),
  cell_sum_loop f m pa pb pd n = cell_sum_loop f m pb pa pd n.
Proof.
  induction n as [|n IH]; intros m pa pb pd; simpl; [reflexivity|].
  destruct (load32 m pa) as [x|], (load32 m pb) as [y|]; simpl; try reflexivity.
  rewrite (Z.add_comm y x).
  destruct (store32 _ _ _); simpl; [|reflexivity].
  apply IH.
Qed.

Lemma cell_sum_loop_inv f : ∀ (n : nat) (m m' : mem) (pa pb pd : Z),
  cell_sum_loop f m pa pb pd n = Some m' →
  m16 m' = m16 m ∧
  (∀ a, ¬ (pd <= a < pd + Z.of_nat n) → load32 m' a = load32 m a) ∧
  (∀ a, is_Some (load32 m' a) ↔ is_Some (load32 m a)) ∧
  ((∀ z, in_int32 (f z)) → wf32 m → wf32 m').
Proof.
  induction n as [|n IH]; intros m m' pa pb pd H; simpl in H.
  - injection H as <-. split; [reflexivity|]. split; [intros; reflexivity|].
    split; [intros; tauto|]. auto.
  - destruct (load32 m pa) as [x|]; simpl in H; [|discriminate].
    destruct (load32 m pb) as [y|]; simpl in H; [|discriminate].
    destruct (store32 _ _ _) as [m1|] eqn:S1; simpl in H; [|discriminate].
    assert (P : is_Some (load32 m pd)).
    { unfold store32 in S1. unfold load32. destruct (m32 m !! pd); [eauto|discriminate]. }
    apply store32_inv in S1.
    destruct (IH _ _ _ _ _ H) as (E16 & Fr & Dom & Wf).
    split; [rewrite E16; now subst m1|]. split; [|split].
    + intros a Ha. rewrite Fr by lia. subst m1. unfold load32. simpl.
      apply lookup_insert_ne. lia.
    + intros a. rewrite Dom. subst m1. unfold load32. simpl.
      destruct (decide (pd = a)) as [->|Hne].
      * rewrite lookup_insert_eq. split; [intros _; exact P|eauto].
      * now rewrite lookup_insert_ne.
    + intros Hf Hw. apply Wf; [exact Hf|]. intros a v Hv. subst m1.
      unfold load32 in Hv. simpl in Hv.
      destruct (decide (pd = a)) as [->|Hne].
      * rewrite lookup_insert_eq in Hv. injection Hv as <-. apply Hf.
      * rewrite lookup_insert_ne in Hv by exact Hne. eapply Hw. exact Hv.
Qed.

Lemma cell_sum_loop_spec f : ∀ (n : nat) (m : mem) (pa pb pd : Z),
  cells32 m pa n → cells32 m pb n → cells32 m pd n →
  no_clobber pa pd n → no_clobber pb pd n →
  ∃ m', cell_sum_loop f m pa pb pd n = Some m' ∧
    ∀ i, 0 <= i < Z.of_nat n →
      ∃ x y, load32 m (pa + i) = Some x ∧ load32 m (pb + i) = Some y ∧
             load32 m' (pd + i) = Some (f (x + y)).
Proof.
  induction n as [|n IH]; intros m pa pb pd Ha Hb Hd Ca Cb.
  - exists m. split; [reflexivity|]. intros i Hi. lia.
  - simpl. unfold no_clobber in Ca, Cb.
    destruct (Ha 0 ltac:(lia)) as [x Hx]. destruct (Hb 0 ltac:(lia)) as [y Hy].
    rewrite Z.add_0_r in Hx, Hy. rewrite Hx, Hy. simpl.
    rewrite store32_ok by (specialize (Hd 0 ltac:(lia)); now rewrite Z.add_0_r in Hd).
    simpl. set (m1 := Mem _ _).
    assert (K : ∀ a, a ≠ pd → load32 m1 a = load32 m a).
    { intros a Hne. unfold load32. simpl. now rewrite lookup_insert_ne. }
    assert (P : ∀ a, is_Some (load32 m a) → is_Some (load32 m1 a)).
    { intros a Hs. destruct (decide (a = pd)) as [->|Hne].
      - unfold load32. simpl. rewrite lookup_insert_eq. eauto.
      - now rewrite K. }
    destruct (IH m1 (pa + 1) (pb + 1) (pd + 1)) as (m' & R & V).
    + intros i Hi. apply P. replace (pa + 1 + i) with (pa + (i + 1)) by lia. apply Ha. lia.
    + intros i Hi. apply P. replace (pb + 1 + i) with (pb + (i + 1)) by lia. apply Hb. lia.
    + intros i Hi. apply P. replace (pd + 1 + i) with (pd + (i + 1)) by lia. apply Hd. lia.
    + unfold no_clobber. lia.
    + unfold no_clobber. lia.
    + exists m'. split; [exact R|]. intros i Hi.
      destruct (decide (i = 0)) as [->|Hne].
      * exists x, y. rewrite !Z.add_0_r. split; [exact Hx|]. split; [exact Hy|].
        destruct (cell_sum_loop_inv _ _ _ _ _ _ _ R) as (_ & Fr & _).
        rewrite Fr by lia. unfold load32. simpl. apply lookup_insert_eq.
      * destruct (V (i - 1) ltac:(lia)) as (u & w & Hu & Hw & Hr).
        replace (pa + 1 + (i - 1)) with (pa + i) in Hu by lia.
        replace (pb + 1 + (i - 1)) with (pb + i) in Hw by lia.
        replace (pd + 1 + (i - 1)) with (pd + i) in Hr by lia.
        rewrite K in Hu by lia. rewrite K in Hw by lia.
        exists u, w. auto.
Qed.

(** ** [ComplexIntArray::add] *)

(** X3. The two operands of [add] can be exchanged: [A.add(B, D)] and
    [B.add(A, D)] on arrays of one size end in the same store, or both
    fault, on either path and for any aliasing. *)
Theorem add_operands_commute (c : config) (m : mem) (A B D : ComplexIntArray.t) :
  ComplexIntArray.size A = ComplexIntArray.size B →
  ComplexIntArray.add c m A B D = ComplexIntArray.add c m B A D.
Proof.
  intros E. rewrite !add_cells, E. apply cell_sum_loop_comm.
Qed.

Lemma add_operands_commute_witness :
  ComplexIntArray.add ARM_CORTEX ex_mem ex_W ex_B ex_D
  = ComplexIntArray.add ARM_CORTEX ex_mem ex_B ex_W ex_D.
Proof. apply (add_operands_commute ARM_CORTEX ex_mem ex_W ex_B ex_D). reflexivity. Defined.

(** X4. When [add] returns, the 16-bit cells are as before, every 32-bit
    cell outside the [2 * size] cells of the destination is as before, no
    cell has been added to or removed from the store, and a store whose
    32-bit cells all hold 32-bit values still does. *)
Theorem add_frame (c : config) (m m' : mem) (A B D : ComplexIntArray.t) :
  ComplexIntArray.add c m A B D = Some m' →
  m16 m' = m16 m ∧
  (∀ a, ¬ (ComplexIntArray.data D <= a
           < ComplexIntArray.data D + 2 * Z.of_nat (ComplexIntArray.size A)) →
        load32 m' a = load32 m a) ∧
  (∀ a, is_Some (load32 m' a) ↔ is_Some (load32 m a)) ∧
  (wf32 m → wf32 m').
Proof.
  rewrite add_cells. intros H.
  destruct (cell_sum_loop_inv _ _ _ _ _ _ _ H) as (E16 & Fr & Dom & Wf).
  split; [exact E16|]. split; [|split; [exact Dom|]].
  - intros a Ha. apply Fr. lia.
  - apply Wf. apply sum_conv_range.
Qed.

Lemma add_frame_witness :
  ∃ m', ComplexIntArray.add PORTABLE ex_mem ex_W ex_B ex_D = Some m' ∧
        m16 m' = m16 ex_mem ∧ load32 m' 300 = Some 196608 ∧ wf32 m'.
Proof.
  destruct (ComplexIntArray.add PORTABLE ex_mem ex_W ex_B ex_D) as [m'|] eqn:E;
    [|vm_compute in E; discriminate].
  exists m'. split; [reflexivity|].
  destruct (add_frame PORTABLE ex_mem m' ex_W ex_B ex_D E) as (E16 & Fr & _ & Wf).
  split; [exact E16|]. split; [|exact (Wf ex_mem_wf32)].
  rewrite Fr; [reflexivity|]. unfold ex_D, ex_W. simpl. lia.
Defined.

(** X5. When the operand and destination cells are present and the
    destination is an operand or does not overlap the operand cells still to
    be read, [add] returns, and each [re] and [im] of the destination is the
    sum of the operands' fields, saturated to the 32-bit range with
    [ARM_CORTEX] and wrapped to it on the portable path. *)
Theorem add_elementwise (c : config) (m : mem) (A B D : ComplexIntArray.t) :
  let n := (ComplexIntArray.size A * 2)%nat in
  cells32 m (ComplexIntArray.data A) n →
  cells32 m (ComplexIntArray.data B) n →
  cells32 m (ComplexIntArray.data D) n →
  no_clobber (ComplexIntArray.data A) (ComplexIntArray.data D) n →
  no_clobber (ComplexIntArray.data B) (ComplexIntArray.data D) n →
  ∃ m', ComplexIntArray.add c m A B D = Some m' ∧
    ∀ i : nat, (i < ComplexIntArray.size A)%nat →
      ∃ x y x' y',
        ComplexIntArray.re m A i = Some x ∧ ComplexIntArray.im m A i = Some y ∧
        ComplexIntArray.re m B i = Some x' ∧ ComplexIntArray.im m B i = Some y' ∧
        ComplexIntArray.re m' D i = Some (sum_conv c (x + x')) ∧
        ComplexIntArray.im m' D i = Some (sum_conv c (y + y')).
Proof.
  intros n Ha Hb Hd Ca Cb. rewrite add_cells. fold n.
  destruct (cell_sum_loop_spec (sum_conv c) n m _ _ _ Ha Hb Hd Ca Cb) as (m' & R & V).
  exists m'. split; [exact R|]. intros i Hi.
  destruct (V (2 * Z.of_nat i) ltac:(lia)) as (x & x' & Hx & Hx' & Rx).
  destruct (V (2 * Z.of_nat i + 1) ltac:(lia)) as (y & y' & Hy & Hy' & Ry).
  exists x, y, x', y'. unfold ComplexIntArray.re, ComplexIntArray.im.
  rewrite <- !Z.add_assoc. auto 10.
Qed.

Lemma ex_mem_cells32_B : cells32 ex_mem 400 2.
Proof.
  intros i Hi. assert (H : i = 0 ∨ i = 1) by lia.
  destruct H as [-> | ->]; vm_compute; eauto.
Defined.

Lemma add_elementwise_witness :
  ∃ m', ComplexIntArray.add_inplace ARM_CORTEX ex_mem ex_W ex_B = Some m' ∧
    ∀ i : nat, (i < 1)%nat →
      ∃ x y x' y',
        ComplexIntArray.re ex_mem ex_W i = Some x ∧ ComplexIntArray.im ex_mem ex_W i = Some y ∧
        ComplexIntArray.re ex_mem ex_B i = Some x' ∧ ComplexIntArray.im ex_mem ex_B i = Some y' ∧
        ComplexIntArray.re m' ex_W i = Some (clip_q63_to_q31 (x + x')) ∧
        ComplexIntArray.im m' ex_W i = Some (clip_q63_to_q31 (y + y')).
Proof.
  apply (add_elementwise ARM_CORTEX ex_mem ex_W ex_B ex_W).
  - exact ex_mem_cells32.
  - exact ex_mem_cells32_B.
  - exact ex_mem_cells32.
  - left. unfold ex_W. simpl. lia.
  - left. unfold ex_W, ex_B. simpl. lia.
Defined.

(** ** Loop bounds and operand sizes *)

Lemma copyFrom_loop_src (W : ComplexIntArray.t) (S S' : ComplexShortArray.t) :
  ComplexShortArray.data S = ComplexShortArray.data S' →
  ∀ (k n : nat) (m : mem),
    ComplexIntArray.copyFrom_loop m W S n k = ComplexIntArray.copyFrom_loop m W S' n k.
Proof.
  intros E. induction k as [|k IH]; intros n m; simpl; [reflexivity|].
  unfold ComplexShortArray.re, ComplexShortArray.im. rewrite E.
  destruct (load16 m _); simpl; [|reflexivity].
  destruct (store32 _ _ _) as [m1|]; simpl; [|reflexivity].
  destruct (load16 m1 _); simpl; [|reflexivity].
  destruct (store32 _ _ _) as [m2|]; simpl; [|reflexivity].
  apply IH.
Qed.

Lemma copyTo_loop_src (W : ComplexIntArray.t) (S S' : ComplexShortArray.t) :
  ComplexShortArray.data S = ComplexShortArray.data S' →
  ∀ (k n : nat) (m : mem),
    ComplexIntArray.copyTo_loop m W S n k = ComplexIntArray.copyTo_loop m W S' n k.
Proof.
  intros E. induction k as [|k IH]; intros n m; simpl; [reflexivity|].
  unfold ComplexShortArray.re, ComplexShortArray.im. rewrite E.
  destruct (load16 m _); simpl; [|reflexivity].
  destruct (store32 _ _ _) as [m1|]; simpl; [|reflexivity].
  destruct (load16 m1 _); simpl; [|reflexivity].
  destruct (store32 _ _ _) as [m2|]; simpl; [|reflexivity].
  apply IH.
Qed.

(** X6. The loops of [add], [copyFrom] and [copyTo] run over the size of
    the receiver only.  The sizes of the operand and of the destination are
    never read: handles on the same storage give the same result whatever
    size they carry, so a shorter operand is read, and a shorter destination
    written, past its end.  On an empty receiver the three methods return
    the store unchanged, whatever the operands. *)
Theorem receiver_size_only (c : config) (m : mem) (A B B' D D' : ComplexIntArray.t)
    (S S' : ComplexShortArray.t) :
  (ComplexIntArray.data B = ComplexIntArray.data B' →
   ComplexIntArray.data D = ComplexIntArray.data D' →
   ComplexIntArray.add c m A B D = ComplexIntArray.add c m A B' D') ∧
  (ComplexShortArray.data S = ComplexShortArray.data S' →
   ComplexIntArray.copyFrom c m A S = ComplexIntArray.copyFrom c m A S' ∧
   ComplexIntArray.copyTo c m A S = ComplexIntArray.copyTo c m A S') ∧
  (ComplexIntArray.size A = 0%nat →
   ComplexIntArray.add c m A B D = Some m ∧
   ComplexIntArray.copyFrom c m A S = Some m ∧
   ComplexIntArray.copyTo c m A S = Some m).
Proof.
  split; [|split].
  - intros EB ED. rewrite !add_cells. now rewrite EB, ED.
  - intros ES. unfold ComplexIntArray.copyFrom, ComplexIntArray.copyTo,
      ComplexShortArray.getData.
    destruct c; rewrite ?ES; split; try reflexivity.
    + now apply copyFrom_loop_src.
    + now apply copyTo_loop_src.
  - intros E0. unfold ComplexIntArray.add, ComplexIntArray.copyFrom, ComplexIntArray.copyTo.
    rewrite E0. destruct c; repeat split.
Qed.

Lemma receiver_size_only_witness :
  ComplexIntArray.add ARM_CORTEX ex_mem ex_W ex_B ex_D
  = ComplexIntArray.add ARM_CORTEX ex_mem ex_W (ComplexIntArray.Build 400 0)
      (ComplexIntArray.Build 500 0) ∧
  ComplexIntArray.copyFrom PORTABLE ex_mem ex_W ex_A
  = ComplexIntArray.copyFrom PORTABLE ex_mem ex_W (ComplexShortArray.Build 100 0) ∧
  ComplexIntArray.add PORTABLE ex_mem ComplexIntArray.default ex_B ex_D = Some ex_mem.
Proof.
  destruct (receiver_size_only ARM_CORTEX ex_mem ex_W ex_B (ComplexIntArray.Build 400 0)
              ex_D (ComplexIntArray.Build 500 0) ex_A ex_A) as (H1 & _ & _).
  destruct (receiver_size_only PORTABLE ex_mem ex_W ex_B ex_B ex_D ex_D ex_A
              (ComplexShortArray.Build 100 0)) as (_ & H2 & _).
  destruct (receiver_size_only PORTABLE ex_mem ComplexIntArray.default ex_B ex_B ex_D ex_D
              ex_A ex_A) as (_ & _ & H3).
  split; [apply H1; reflexivity|]. split; [apply H2; reflexivity|].
  apply H3. reflexivity.
Defined.

(** ** The portable [copyTo] against the portable [copyFrom] *)

Lemma copyTo_loop_is_copyFrom_loop (W : ComplexIntArray.t) (A : ComplexShortArray.t) :
  ∀ (k n : nat) (m : mem), wf16 m →
    ComplexIntArray.copyTo_loop m W A n k = ComplexIntArray.copyFrom_loop m W A n k.
Proof.
  induction k as [|k IH]; intros n m Hwf; simpl; [reflexivity|].
  destruct (ComplexShortArray.re m A n) as [x|] eqn:Hx; simpl; [|reflexivity].
  rewrite (wrap16_id x) by (eapply Hwf; exact Hx).
  destruct (store32 _ _ _) as [m1|] eqn:S1; simpl; [|reflexivity].
  apply store32_inv in S1.
  assert (W1 : wf16 m1) by (subst m1; exact Hwf).
  destruct (ComplexShortArray.im m1 A n) as [y|] eqn:Hy; simpl; [|reflexivity].
  rewrite (wrap16_id y) by (eapply W1; exact Hy).
  destruct (store32 _ _ _) as [m2|] eqn:S2; simpl; [|reflexivity].
  apply store32_inv in S2. apply IH. subst m2. exact W1.
Qed.

(** X7. On the portable path [W.copyTo(A)] does what [W.copyFrom(A)] does:
    in a store whose 16-bit cells hold 16-bit values the two calls end in
    the same store (or both fault). *)
Theorem copyTo_portable_is_copyFrom (m : mem) (W : ComplexIntArray.t)
    (A : ComplexShortArray.t) :
  wf16 m →
  ComplexIntArray.copyTo PORTABLE m W A = ComplexIntArray.copyFrom PORTABLE m W A.
Proof. intros Hwf. now apply copyTo_loop_is_copyFrom_loop. Qed.

Lemma copyTo_portable_is_copyFrom_witness :
  ComplexIntArray.copyTo PORTABLE ex_mem ex_W ex_A
  = ComplexIntArray.copyFrom PORTABLE ex_mem ex_W ex_A.
Proof. exact (copyTo_portable_is_copyFrom ex_mem ex_W ex_A ex_mem_wf16). Defined.

(** ** Narrowing, then widening again *)

(** X8. With [ARM_CORTEX], [W.copyTo(A)] followed by [W.copyFrom(A)] clears
    the lower 16 bits of every field of [W] and changes nothing else of it:
    each field [x] becomes [x - x mod 2^16]. *)
Theorem narrow_then_widen (m : mem) (W : ComplexIntArray.t) (A : ComplexShortArray.t) :
  ComplexIntArray.size W = ComplexShortArray.size A →
  wf32 m →
  cells16 m (ComplexShortArray.data A) (ComplexShortArray.size A * 2) →
  cells32 m (ComplexIntArray.data W) (ComplexShortArray.size A * 2) →
  ∃ m1 m2,
    ComplexIntArray.copyTo ARM_CORTEX m W A = Some m1 ∧
    ComplexIntArray.copyFrom ARM_CORTEX m1 W A = Some m2 ∧
    ∀ i : nat, (i < ComplexShortArray.size A)%nat →
      ∃ x y, ComplexIntArray.re m W i = Some x ∧ ComplexIntArray.im m W i = Some y ∧
             ComplexIntArray.re m2 W i = Some (x - x mod 65536) ∧
             ComplexIntArray.im m2 W i = Some (y - y mod 65536).
Proof.
  intros HW Hwf Ha Hw.
  unfold ComplexIntArray.copyTo, ComplexIntArray.copyFrom, ComplexShortArray.getData.
  rewrite HW.
  destruct (arm_q31_to_q15_spec _ m _ _ Hw Ha) as (m1 & R1 & E32 & V1 & F1).
  destruct (arm_q15_to_q31_spec (ComplexShortArray.size A * 2) m1
              (ComplexShortArray.data A) (ComplexIntArray.data W))
    as (m2 & R2 & E16 & V2 & F2).
  { intros i Hi. destruct (V1 i Hi) as [x [_ Hx]]. rewrite Hx. eauto. }
  { intros i Hi. unfold load32. rewrite E32. apply Hw, Hi. }
  exists m1, m2. split; [exact R1|]. split; [exact R2|].
  assert (K : ∀ j, 0 <= j < Z.of_nat (ComplexShortArray.size A * 2) →
            ∃ x, load32 m (ComplexIntArray.data W + j) = Some x ∧
                 load32 m2 (ComplexIntArray.data W + j) = Some (x - x mod 65536)).
  { intros j Hj. destruct (V1 j Hj) as [x [Hx1 Hx2]].
    destruct (V2 j Hj) as [v [Hv1 Hv2]]. rewrite Hx2 in Hv1. injection Hv1 as <-.
    exists x. split; [exact Hx1|]. rewrite Hv2. f_equal.
    assert (Hr : in_int32 x) by (eapply Hwf; exact Hx1).
    rewrite narrow_div by exact Hr.
    assert (Hq : in_int16 (x / 65536)).
    { unfold in_int32 in Hr. unfold in_int16. split.
      - apply Z.div_le_lower_bound; lia.
      - apply Z.lt_succ_r. apply Z.div_lt_upper_bound; lia. }
    rewrite widen_exact by exact Hq.
    pose proof (Z.div_mod x 65536 ltac:(lia)). lia. }
  intros i Hi.
  destruct (K (2 * Z.of_nat i) ltac:(lia)) as [x [Hx1 Hx2]].
  destruct (K (2 * Z.of_nat i + 1) ltac:(lia)) as [y [Hy1 Hy2]].
  exists x, y. unfold ComplexIntArray.re, ComplexIntArray.im.
  rewrite <- !Z.add_assoc. auto.
Qed.

Lemma narrow_then_widen_witness :
  ∃ m1 m2,
    ComplexIntArray.copyTo ARM_CORTEX ex_mem ex_W ex_A = Some m1 ∧
    ComplexIntArray.copyFrom ARM_CORTEX m1 ex_W ex_A = Some m2 ∧
    ∀ i : nat, (i < 1)%nat →
      ∃ x y, ComplexIntArray.re ex_mem ex_W i = Some x ∧
             ComplexIntArray.im ex_mem ex_W i = Some y ∧
             ComplexIntArray.re m2 ex_W i = Some (x - x mod 65536) ∧
             ComplexIntArray.im m2 ex_W i = Some (y - y mod 65536).
Proof.
  exact (narrow_then_widen ex_mem ex_W ex_A eq_refl ex_mem_wf32 ex_mem_cells16
           ex_mem_cells32).
Defined.

(** ** Sums through the wide array *)

Lemma copyFrom_cells (c : config) (m : mem) (W : ComplexIntArray.t)
    (A : ComplexShortArray.t) (n : nat) :
  n = (ComplexIntArray.size W * 2)%nat →
  wf16 m →
  cells16 m (ComplexShortArray.data A) n →
  cells32 m (ComplexIntArray.data W) n →
  ∃ m', ComplexIntArray.copyFrom c m W A = Some m' ∧ m16 m' = m16 m ∧
    (∀ j, 0 <= j < Z.of_nat n →
       ∃ x, load16 m (ComplexShortArray.data A + j) = Some x ∧
            load32 m' (ComplexIntArray.data W + j) = Some (widen_conv c x)) ∧
    (∀ a, ¬ (ComplexIntArray.data W <= a < ComplexIntArray.data W + Z.of_nat n) →
          load32 m' a = load32 m a).
Proof.
  intros -> Hwf Ha Hw. unfold ComplexIntArray.copyFrom, ComplexShortArray.getData.
  destruct c.
  - destruct (arm_q15_to_q31_spec _ m _ _ Ha Hw) as (m' & R & E & V & F).
    exists m'. split; [exact R|]. split; [exact E|]. split; [|exact F].
    intros j Hj. destruct (V j Hj) as [x [Hx1 Hx2]]. exists x. split; [exact Hx1|].
    rewrite Hx2. simpl. f_equal. apply widen_exact. eapply Hwf. exact Hx1.
  - destruct (copyFrom_loop_spec W A (ComplexIntArray.size W) 0 m)
      as (m' & R & E & V & F).
    { now rewrite Z.add_0_r. }
    { now rewrite Z.add_0_r. }
    change (2 * Z.of_nat 0) with 0 in V, F. rewrite !Z.add_0_r in V, F.
    exists m'. split; [exact R|]. split; [exact E|]. split; [|exact F].
    intros j Hj. destruct (V j Hj) as [x [Hx1 Hx2]]. exists x.
    rewrite Z.add_0_r in Hx2. split; [exact Hx1|exact Hx2].
Qed.

(** Two arrays widened into two disjoint wide arrays, then added in place:
    each cell of the first wide array holds the converted sum of the two
    widened fields. *)
Lemma widen_widen_add (c : config) (m : mem) (A B : ComplexShortArray.t)
    (W1 W2 : ComplexIntArray.t) :
  let n := (ComplexShortArray.size A * 2)%nat in
  let w1 := ComplexIntArray.data W1 in
  let w2 := ComplexIntArray.data W2 in
  ComplexIntArray.size W1 = ComplexShortArray.size A →
  ComplexIntArray.size W2 = ComplexShortArray.size A →
  wf16 m →
  cells16 m (ComplexShortArray.data A) n → cells16 m (ComplexShortArray.data B) n →
  cells32 m w1 n → cells32 m w2 n →
  (w1 + Z.of_nat n <= w2 ∨ w2 + Z.of_nat n <= w1) →
  ∃ m1 m2 m3,
    ComplexIntArray.copyFrom c m W1 A = Some m1 ∧
    ComplexIntArray.copyFrom c m1 W2 B = Some m2 ∧
    ComplexIntArray.add_inplace c m2 W1 W2 = Some m3 ∧
    m16 m3 = m16 m ∧
    ∀ j, 0 <= j < Z.of_nat n →
      ∃ x y, load16 m (ComplexShortArray.data A + j) = Some x ∧
             load16 m (ComplexShortArray.data B + j) = Some y ∧
             load32 m3 (w1 + j)
             = Some (sum_conv c (widen_conv c x + widen_conv c y)).
Proof.
  intros n w1 w2 H1 H2 Hwf Ha Hb Hw1 Hw2 Hsep.
  destruct (copyFrom_cells c m W1 A n) as (m1 & R1 & E1 & V1 & F1);
    [unfold n; now rewrite H1|exact Hwf|exact Ha|exact Hw1|].
  fold w1 in V1, F1.
  assert (Hwf1 : wf16 m1) by (intros a v; unfold load16; rewrite E1; apply Hwf).
  destruct (copyFrom_cells c m1 W2 B n) as (m2 & R2 & E2 & V2 & F2);
    [unfold n; now rewrite H2|exact Hwf1| | |].
  { intros j Hj. unfold load16. rewrite E1. apply Hb, Hj. }
  { intros j Hj. fold w2. rewrite F1 by lia. apply Hw2, Hj. }
  fold w2 in V2, F2.
  assert (C1 : ∀ j, 0 <= j < Z.of_nat n → load32 m2 (w1 + j) = load32 m1 (w1 + j)).
  { intros j Hj. apply F2. lia. }
  pose proof (add_cells c m2 W1 W2 W1) as AC. fold w1 w2 in AC.
  rewrite H1 in AC. fold n in AC.
  destruct (cell_sum_loop_spec (sum_conv c) n m2 w1 w2 w1) as (m3 & R3 & V3).
  { intros j Hj. rewrite C1 by exact Hj. destruct (V1 j Hj) as [x [_ Hx]].
    rewrite Hx. eauto. }
  { intros j Hj. destruct (V2 j Hj) as [y [_ Hy]]. rewrite Hy. eauto. }
  { intros j Hj. rewrite C1 by exact Hj. destruct (V1 j Hj) as [x [_ Hx]].
    rewrite Hx. eauto. }
  { left. lia. }
  { unfold no_clobber. lia. }
  exists m1, m2, m3. split; [exact R1|]. split; [exact R2|].
  split; [unfold ComplexIntArray.add_inplace; now rewrite AC|].
  split.
  { destruct (cell_sum_loop_inv _ _ _ _ _ _ _ R3) as (E3 & _). now rewrite E3, E2, E1. }
  intros j Hj. destruct (V3 j Hj) as (u & v & Hu & Hv & Hr).
  destruct (V1 j Hj) as [x [Hx1 Hx2]]. destruct (V2 j Hj) as [y [Hy1 Hy2]].
  rewrite C1, Hx2 in Hu by exact Hj. rewrite Hy2 in Hv.
  injection Hu as <-. injection Hv as <-.
  exists x, y. split; [exact Hx1|]. split; [|exact Hr].
  unfold load16 in Hy1. rewrite E1 in Hy1. exact Hy1.
Qed.

Lemma sat_narrow x y :
  in_int16 x → in_int16 y →
  int16_t (Z.shiftr (clip_q63_to_q31 (x * 65536 + y * 65536)) 16) = sat16 (x + y).
Proof.
  unfold in_int16. intros Hx Hy. rewrite narrow_div.
  2:{ unfold clip_q63_to_q31, in_int32. lia. }
  unfold clip_q63_to_q31, sat16.
  destruct (Z_lt_le_dec 32767 (x + y)) as [Hhi|Hhi].
  - rewrite (Z.min_r _ 2147483647), Z.max_r by lia.
    rewrite (Z.min_r _ 32767), Z.max_r by lia. reflexivity.
  - destruct (Z_lt_le_dec (x + y) (-32768)) as [Hlo|Hlo].
    + rewrite (Z.min_l _ 2147483647), Z.max_l by lia.
      rewrite (Z.min_l _ 32767), Z.max_l by lia. reflexivity.
    + rewrite (Z.min_l _ 2147483647), Z.max_r by lia.
      rewrite (Z.min_l _ 32767), Z.max_r by lia.
      replace (x * 65536 + y * 65536) with ((x + y) * 65536) by lia.
      apply Z.div_mul. lia.
Qed.

(** X9. With [ARM_CORTEX], adding two 16-bit arrays through the wide type
    gives the 16-bit saturating sum: after [W1.copyFrom(A)],
    [W2.copyFrom(B)], [W1.add(W2)] and [W1.copyTo(C)] on disjoint wide
    arrays, each [re] and [im] of [C] is the sum of the fields of [A] and
    [B] clamped to [-32768, 32767]. *)
Theorem accumulate_hw (m : mem) (A B C : ComplexShortArray.t)
    (W1 W2 : ComplexIntArray.t) :
  let n := (ComplexShortArray.size A * 2)%nat in
  ComplexIntArray.size W1 = ComplexShortArray.size A →
  ComplexIntArray.size W2 = ComplexShortArray.size A →
  wf16 m →
  cells16 m (ComplexShortArray.data A) n → cells16 m (ComplexShortArray.data B) n →
  cells16 m (ComplexShortArray.data C) n →
  cells32 m (ComplexIntArray.data W1) n → cells32 m (ComplexIntArray.data W2) n →
  (ComplexIntArray.data W1 + Z.of_nat n <= ComplexIntArray.data W2 ∨
   ComplexIntArray.data W2 + Z.of_nat n <= ComplexIntArray.data W1) →
  ∃ m1 m2 m3 m4,
    ComplexIntArray.copyFrom ARM_CORTEX m W1 A = Some m1 ∧
    ComplexIntArray.copyFrom ARM_CORTEX m1 W2 B = Some m2 ∧
    ComplexIntArray.add_inplace ARM_CORTEX m2 W1 W2 = Some m3 ∧
    ComplexIntArray.copyTo ARM_CORTEX m3 W1 C = Some m4 ∧
    ∀ i : nat, (i < ComplexShortArray.size A)%nat →
      ∃ x y x' y',
        ComplexShortArray.re m A i = Some x ∧ ComplexShortArray.im m A i = Some y ∧
        ComplexShortArray.re m B i = Some x' ∧ ComplexShortArray.im m B i = Some y' ∧
        ComplexShortArray.re m4 C i = Some (sat16 (x + x')) ∧
        ComplexShortArray.im m4 C i = Some (sat16 (y + y')).
Proof.
  intros n H1 H2 Hwf Ha Hb Hc Hw1 Hw2 Hsep.
  destruct (widen_widen_add ARM_CORTEX m A B W1 W2 H1 H2 Hwf Ha Hb Hw1 Hw2 Hsep)
    as (m1 & m2 & m3 & R1 & R2 & R3 & E3 & V3).
  fold n in V3.
  unfold ComplexIntArray.copyTo, ComplexShortArray.getData. rewrite H1. fold n.
  destruct (arm_q31_to_q15_spec n m3 (ComplexIntArray.data W1) (ComplexShortArray.data C))
    as (m4 & R4 & _ & V4 & _).
  { intros j Hj. destruct (V3 j Hj) as (x & y & _ & _ & Hr). rewrite Hr. eauto. }
  { intros j Hj. unfold load16. rewrite E3. apply Hc, Hj. }
  exists m1, m2, m3, m4. repeat (split; [assumption|]).
  assert (K : ∀ j, 0 <= j < Z.of_nat n →
            ∃ x y, load16 m (ComplexShortArray.data A + j) = Some x ∧
                   load16 m (ComplexShortArray.data B + j) = Some y ∧
                   load16 m4 (ComplexShortArray.data C + j) = Some (sat16 (x + y))).
  { intros j Hj. destruct (V3 j Hj) as (x & y & Hx & Hy & Hr).
    destruct (V4 j Hj) as (z & Hz1 & Hz2). rewrite Hr in Hz1. injection Hz1 as <-.
    exists x, y. split; [exact Hx|]. split; [exact Hy|]. rewrite Hz2. f_equal.
    simpl. apply sat_narrow; eapply Hwf; eassumption. }
  intros i Hi.
  destruct (K (2 * Z.of_nat i) ltac:(lia)) as (x & x' & Hx & Hx' & Rx).
  destruct (K (2 * Z.of_nat i + 1) ltac:(lia)) as (y & y' & Hy & Hy' & Ry).
  exists x, y, x', y'. unfold ComplexShortArray.re, ComplexShortArray.im.
  rewrite <- !Z.add_assoc. auto 10.
Qed.

(** X10. On the portable path the wide array holds exact sums: after
    [W1.copyFrom(A)], [W2.copyFrom(B)] and [W1.add(W2)] on disjoint wide
    arrays, each [re] and [im] of [W1] is the sum of the fields of [A] and
    [B], without wrap-around. *)
Theorem accumulate_portable (m : mem) (A B : ComplexShortArray.t)
    (W1 W2 : ComplexIntArray.t) :
  let n := (ComplexShortArray.size A * 2)%nat in
  ComplexIntArray.size W1 = ComplexShortArray.size A →
  ComplexIntArray.size W2 = ComplexShortArray.size A →
  wf16 m →
  cells16 m (ComplexShortArray.data A) n → cells16 m (ComplexShortArray.data B) n →
  cells32 m (ComplexIntArray.data W1) n → cells32 m (ComplexIntArray.data W2) n →
  (ComplexIntArray.data W1 + Z.of_nat n <= ComplexIntArray.data W2 ∨
   ComplexIntArray.data W2 + Z.of_nat n <= ComplexIntArray.data W1) →
  ∃ m1 m2 m3,
    ComplexIntArray.copyFrom PORTABLE m W1 A = Some m1 ∧
    ComplexIntArray.copyFrom PORTABLE m1 W2 B = Some m2 ∧
    ComplexIntArray.add_inplace PORTABLE m2 W1 W2 = Some m3 ∧
    ∀ i : nat, (i < ComplexShortArray.size A)%nat →
      ∃ x y x' y',
        ComplexShortArray.re m A i = Some x ∧ ComplexShortArray.im m A i = Some y ∧
        ComplexShortArray.re m B i = Some x' ∧ ComplexShortArray.im m B i = Some y' ∧
        ComplexIntArray.re m3 W1 i = Some (x + x') ∧
        ComplexIntArray.im m3 W1 i = Some (y + y').
Proof.
  intros n H1 H2 Hwf Ha Hb Hw1 Hw2 Hsep.
  destruct (widen_widen_add PORTABLE m A B W1 W2 H1 H2 Hwf Ha Hb Hw1 Hw2 Hsep)
    as (m1 & m2 & m3 & R1 & R2 & R3 & E3 & V3).
  fold n in V3. exists m1, m2, m3. repeat (split; [assumption|]).
  assert (K : ∀ j, 0 <= j < Z.of_nat n →
            ∃ x y, load16 m (ComplexShortArray.data A + j) = Some x ∧
                   load16 m (ComplexShortArray.data B + j) = Some y ∧
                   load32 m3 (ComplexIntArray.data W1 + j) = Some (x + y)).
  { intros j Hj. destruct (V3 j Hj) as (x & y & Hx & Hy & Hr).
    exists x, y. split; [exact Hx|]. split; [exact Hy|]. rewrite Hr. f_equal.
    simpl. apply wrap32_id.
    pose proof (Hwf _ _ Hx) as Bx. pose proof (Hwf _ _ Hy) as By.
    unfold in_int16 in Bx, By. unfold in_int32. lia. }
  intros i Hi.
  destruct (K (2 * Z.of_nat i) ltac:(lia)) as (x & x' & Hx & Hx' & Rx).
  destruct (K (2 * Z.of_nat i + 1) ltac:(lia)) as (y & y' & Hy & Hy' & Ry).
  exists x, y, x', y'.
  unfold ComplexShortArray.re, ComplexShortArray.im, ComplexIntArray.re, ComplexIntArray.im.
  rewrite <- !Z.add_assoc. auto 10.
Qed.

Lemma acc_mem_wf16 : wf16 acc_mem.
Proof. apply wf16_mem_of. repeat constructor; unfold in_int16; simpl; lia. Defined.

Lemma acc_mem_cells16 p : p = 100 ∨ p = 200 ∨ p = 250 → cells16 acc_mem p 2.
Proof.
  intros Hp i Hi. assert (H : i = 0 ∨ i = 1) by lia.
  destruct Hp as [-> | [-> | ->]]; destruct H as [-> | ->]; vm_compute; eauto.
Defined.

Lemma acc_mem_cells32 p : p = 300 ∨ p = 400 → cells32 acc_mem p 2.
Proof.
  intros Hp i Hi. assert (H : i = 0 ∨ i = 1) by lia.
  destruct Hp as [-> | ->]; destruct H as [-> | ->]; vm_compute; eauto.
Defined.

Lemma accumulate_hw_witness :
  ∃ m1 m2 m3 m4,
    ComplexIntArray.copyFrom ARM_CORTEX acc_mem acc_W1 acc_A = Some m1 ∧
    ComplexIntArray.copyFrom ARM_CORTEX m1 acc_W2 acc_B = Some m2 ∧
    ComplexIntArray.add_inplace ARM_CORTEX m2 acc_W1 acc_W2 = Some m3 ∧
    ComplexIntArray.copyTo ARM_CORTEX m3 acc_W1 acc_C = Some m4 ∧
    ∀ i : nat, (i < 1)%nat →
      ∃ x y x' y',
        ComplexShortArray.re acc_mem acc_A i = Some x ∧
        ComplexShortArray.im acc_mem acc_A i = Some y ∧
        ComplexShortArray.re acc_mem acc_B i = Some x' ∧
        ComplexShortArray.im acc_mem acc_B i = Some y' ∧
        ComplexShortArray.re m4 acc_C i = Some (sat16 (x + x')) ∧
        ComplexShortArray.im m4 acc_C i = Some (sat16 (y + y')).
Proof.
  apply (accumulate_hw acc_mem acc_A acc_B acc_C acc_W1 acc_W2);
    first [reflexivity | exact acc_mem_wf16
          | apply acc_mem_cells16; simpl; tauto
          | apply acc_mem_cells32; simpl; tauto
          | left; simpl; lia].
Defined.

Lemma accumulate_portable_witness :
  ∃ m1 m2 m3,
    ComplexIntArray.copyFrom PORTABLE acc_mem acc_W1 acc_A = Some m1 ∧
    ComplexIntArray.copyFrom PORTABLE m1 acc_W2 acc_B = Some m2 ∧
    ComplexIntArray.add_inplace PORTABLE m2 acc_W1 acc_W2 = Some m3 ∧
    ∀ i : nat, (i < 1)%nat →
      ∃ x y x' y',
        ComplexShortArray.re acc_mem acc_A i = Some x ∧
        ComplexShortArray.im acc_mem acc_A i = Some y ∧
        ComplexShortArray.re acc_mem acc_B i = Some x' ∧
        ComplexShortArray.im acc_mem acc_B i = Some y' ∧
        ComplexIntArray.re m3 acc_W1 i = Some (x + x') ∧
        ComplexIntArray.im m3 acc_W1 i = Some (y + y').
Proof.
  apply (accumulate_portable acc_mem acc_A acc_B acc_W1 acc_W2);
    first [reflexivity | exact acc_mem_wf16
          | apply acc_mem_cells16; simpl; tauto
          | apply acc_mem_cells32; simpl; tauto
          | left; simpl; lia].
Defined.

(** ** The round trip with the vector primitives, on sample data *)

Lemma ex_mem_cells16_A2 : cells16 ex_mem 200 2.
Proof.
  intros i Hi. assert (H : i = 0 ∨ i = 1) by lia.
  destruct H as [-> | ->]; vm_compute; eauto.
Defined.

Lemma copy_roundtrip_hw_witness :
  ∃ m1 m2,
    ComplexIntArray.copyFrom ARM_CORTEX ex_mem ex_W ex_A = Some m1 ∧
    ComplexIntArray.copyTo ARM_CORTEX m1 ex_W ex_A2 = Some m2 ∧
    ComplexShortArray.equals m2 ex_A2 ex_A = Some true.
Proof.
  apply (copy_roundtrip_hw ex_mem ex_W ex_A ex_A2);
    first [reflexivity | exact ex_mem_wf16 | exact ex_mem_cells16
          | exact ex_mem_cells16_A2 | exact ex_mem_cells32
          | right; right; simpl; lia].
Defined.

(** * The polar accessors of [ComplexShort] *)

(** ** Real-number tools *)

Lemma abs_between x b : (Rabs x <= b)%R → (- b <= x <= b)%R.
Proof. unfold Rabs. destruct (Rcase_abs x); lra. Qed.

Lemma between_abs x b : (- b <= x <= b)%R → (Rabs x <= b)%R.
Proof. unfold Rabs. destruct (Rcase_abs x); lra. Qed.

Lemma sin_abs_le x : (Rabs (sin x) <= Rabs x)%R.
Proof.
  assert (Hpos : ∀ y, (0 < y)%R → (- y <= sin y <= y)%R).
  { intros y Hy. split; [|left; now apply sin_lt_x].
    destruct (Rle_dec y PI) as [Hle|Hgt].
    - pose proof (sin_ge_0 y ltac:(lra) Hle). lra.
    - pose proof (SIN_bound y). pose proof PI2_1. lra. }
  apply between_abs. unfold Rabs. destruct (Rcase_abs x) as [Hn|Hp].
  - specialize (Hpos (- x)%R ltac:(lra)). rewrite sin_neg in Hpos. lra.
  - destruct (Req_dec x 0) as [->|Hne]; [rewrite sin_0; lra|].
    apply Hpos. lra.
Qed.

Lemma cos_lipschitz p q : (Rabs (cos p - cos q) <= Rabs (p - q))%R.
Proof.
  rewrite form2.
  pose proof (abs_between _ _ (sin_abs_le ((p - q) / 2))) as H1.
  pose proof (SIN_bound ((p + q) / 2)) as H2.
  assert (H3 : (Rabs ((p - q) / 2) = Rabs (p - q) / 2)%R).
  { unfold Rabs. destruct (Rcase_abs ((p - q) / 2)), (Rcase_abs (p - q)); lra. }
  rewrite H3 in H1. pose proof (Rabs_pos (p - q)).
  apply between_abs. nra.
Qed.

Lemma sin_lipschitz p q : (Rabs (sin p - sin q) <= Rabs (p - q))%R.
Proof.
  rewrite form4.
  pose proof (abs_between _ _ (sin_abs_le ((p - q) / 2))) as H1.
  pose proof (COS_bound ((p + q) / 2)) as H2.
  assert (H3 : (Rabs ((p - q) / 2) = Rabs (p - q) / 2)%R).
  { unfold Rabs. destruct (Rcase_abs ((p - q) / 2)), (Rcase_abs (p - q)); lra. }
  rewrite H3 in H1. pose proof (Rabs_pos (p - q)).
  apply between_abs. nra.
Qed.

(** The exact angle of a point other than the origin: its cosine and sine
    times the distance to the origin are the coordinates. *)
Lemma polar_exact (a b : Z) :
  (a ≠ 0 ∨ b ≠ 0) →
  let r := sqrt (IZR (a * a + b * b)) in
  (0 < r)%R ∧ (r * r = IZR a * IZR a + IZR b * IZR b)%R ∧
  (cos (atan2 b a) * r = IZR a)%R ∧ (sin (atan2 b a) * r = IZR b)%R.
Proof.
  intros Hne r.
  assert (Hs : (0 < IZR (a * a + b * b))%R) by (apply IZR_lt; nia).
  assert (Hr : (0 < r)%R) by (apply sqrt_lt_R0; exact Hs).
  assert (Hrr : (r * r = IZR a * IZR a + IZR b * IZR b)%R).
  { unfold r. rewrite sqrt_sqrt by lra. now rewrite plus_IZR, !mult_IZR. }
  split; [exact Hr|]. split; [exact Hrr|].
  set (A := IZR a) in *. set (B := IZR b) in *.
  assert (Hroot : ∀ k : R, (0 < k)%R → (k * k = A * A)%R →
            sqrt (1 + (B / A)²) = (r / k)%R).
  { intros k Hk Hkk. assert (A ≠ 0%R) by nra.
    apply sqrt_lem_1.
    - unfold Rsqr. nra.
    - apply Rlt_le. apply Rdiv_lt_0_compat; assumption.
    - replace (r / k * (r / k))%R with ((r * r) / (k * k))%R by (field; lra).
      rewrite Hrr, Hkk. unfold Rsqr. field. lra. }
  unfold atan2. fold A B.
  destruct (Z.ltb_spec 0 a) as [Hpos|Hnp].
  - assert (HA : (0 < A)%R) by (apply IZR_lt; lia).
    rewrite cos_atan, sin_atan, (Hroot A HA eq_refl). split; field; lra.
  - destruct (Z.ltb_spec a 0) as [Hneg|Hz].
    + assert (HA : (A < 0)%R) by (apply IZR_lt; lia).
      assert (Hk : sqrt (1 + (B / A)²) = (r / - A)%R) by (apply Hroot; lra).
      destruct (0 <=? b).
      * rewrite neg_cos, neg_sin, cos_atan, sin_atan, Hk. split; field; lra.
      * rewrite cos_minus, sin_minus, cos_PI, sin_PI, cos_atan, sin_atan, Hk.
        split; field; lra.
    + assert (Ha0 : a = 0) by lia. subst a.
      assert (HA : A = 0%R) by reflexivity.
      destruct (Z.ltb_spec 0 b) as [Hbp|Hbn].
      * assert (HB : (0 < B)%R) by (apply IZR_lt; lia).
        assert (r = B) by nra.
        rewrite cos_PI2, sin_PI2. lra.
      * destruct (Z.ltb_spec b 0) as [Hbn'|Hb0]; [|lia].
        assert (HB : (B < 0)%R) by (apply IZR_lt; lia).
        assert (r = (- B)%R) by nra.
        replace (- PI / 2)%R with (- (PI / 2))%R by lra.
        rewrite cos_neg, sin_neg, cos_PI2, sin_PI2. lra.
Qed.

(** ** The floating-point environment *)

Section FloatFacts.
Context `{FloatEnv}.

Lemma fl_0 : fl 0 = 0%R.
Proof. apply (fl_int 0). lia. Qed.

Lemma fl_near (x b : R) :
  (- b <= x <= b)%R → (b <= 4294967296)%R →
  (- (u32 * b + eta32) <= fl x - x <= u32 * b + eta32)%R.
Proof.
  intros Hx Hb. pose proof (between_abs _ _ Hx) as Ha.
  pose proof (Rabs_pos x) as Hp.
  pose proof (abs_between _ _ (fl_err x ltac:(lra))) as He.
  assert (Hu : (0 < u32)%R) by (unfold u32; lra).
  nra.
Qed.

Lemma cosf_near (p : R) : (- libm_eps <= cosf p - cos p <= libm_eps)%R.
Proof. apply abs_between, cosf_err. Qed.

Lemma sinf_near (p : R) : (- libm_eps <= sinf p - sin p <= libm_eps)%R.
Proof. apply abs_between, sinf_err. Qed.

(** The cosine and sine of the computed phase of a point, times its
    distance to the origin, are within [2 * libm_eps] times that distance of
    the coordinates. *)
Lemma computed_phase (a b : Z) :
  (a ≠ 0 ∨ b ≠ 0) →
  let r := sqrt (IZR (a * a + b * b)) in
  let phase := atan2f b a in
  (- (2 * libm_eps * r) <= cosf phase * r - IZR a <= 2 * libm_eps * r)%R ∧
  (- (2 * libm_eps * r) <= sinf phase * r - IZR b <= 2 * libm_eps * r)%R.
Proof.
  intros Hne r phase.
  destruct (polar_exact a b Hne) as (Hr & _ & Hc & Hs). fold r in Hr, Hc, Hs.
  pose proof (abs_between _ _ (atan2f_err b a)) as Hp. fold phase in Hp.
  pose proof (cosf_near phase) as C1. pose proof (sinf_near phase) as S1.
  pose proof (abs_between _ _ (cos_lipschitz phase (atan2 b a))) as C2.
  pose proof (abs_between _ _ (sin_lipschitz phase (atan2 b a))) as S2.
  assert (Ha : (Rabs (phase - atan2 b a) <= libm_eps)%R) by (apply between_abs; lra).
  rewrite <- Hc, <- Hs. split; nra.
Qed.

(** A value within 1/2 of an integer [a], after adding 0.5 and truncating
    toward zero, gives [a] when [a >= 0] and [a + 1] otherwise. *)
Lemma trunc_half_near (p : R) (a : Z) :
  (IZR a - 1 / 2 < p < IZR a + 1 / 2)%R → Rtrunc (p + 0.5) = toward0 a.
Proof.
  intros Hp. unfold toward0. destruct (Z.ltb_spec a 0) as [Hn|Hn].
  - apply toward_zero_unique. unfold toward_zero. rewrite plus_IZR.
    assert (IZR a <= -1)%R by (apply IZR_le; lia). split; intros; lra.
  - assert (0 <= IZR a)%R by (apply IZR_le; lia). apply Rtrunc_nonneg; lra.
Qed.

Lemma to_int16_in z : in_int16 z → to_int16 z = Some z.
Proof.
  unfold in_int16, to_int16. intros Hz.
  destruct (Z.leb_spec (-32768) z), (Z.leb_spec z 32767); simpl; first [reflexivity|lia].
Qed.

Lemma to_int16_out z : ¬ in_int16 z → to_int16 z = None.
Proof.
  unfold in_int16, to_int16. intros Hz.
  destruct (Z.leb_spec (-32768) z), (Z.leb_spec z 32767); simpl; first [reflexivity|lia].
Qed.

(** The rounded product of [setPolar] for a magnitude [g] and a factor [c]
    whose exact product is within [d] of an integer [a]. *)
Lemma product_near (g a : Z) (c d : R) :
  0 <= g <= 32767 → (- 2 <= c <= 2)%R →
  (- d <= IZR g * c - IZR a <= d)%R →
  (d + u32 * (2 * IZR g) + eta32 < 1 / 2)%R →
  Rtrunc (fl (fl (IZR g) * c) + 0.5) = toward0 a.
Proof.
  intros Hg Hc Hd Hsum. rewrite (fl_int g) by lia.
  assert (G0 : (0 <= IZR g)%R) by (apply IZR_le; lia).
  assert (G1 : (IZR g <= 32767)%R) by (apply IZR_le; lia).
  pose proof (fl_near (IZR g * c) (2 * IZR g) ltac:(nra) ltac:(lra)) as Hf.
  apply trunc_half_near. lra.
Qed.

End FloatFacts.

(** ** The rounded root of a small sum of squares *)

(** An integer [G] obtained by adding 1/2 to an approximation [q] of the
    root [r] of an integer [s] and rounding down is within
    [1/2 - 1/3000] of [r], when [r <= 363] and [q] is within 1/40000. *)
Lemma nearest_to_root (s G : Z) (r q : R) :
  0 <= s → (0 <= r)%R → (r * r = IZR s)%R → (r <= 363)%R →
  (- (1 / 40000) <= q - r <= 1 / 40000)%R →
  (IZR G <= q + 1 / 2 < IZR G + 1)%R →
  0 <= G <= 363 ∧ (- (1 / 2 - 1 / 3000) <= IZR G - r <= 1 / 2 - 1 / 3000)%R.
Proof.
  intros Hs Hr Hrr Hb Hq HG.
  assert (G0 : -1 < G) by (apply lt_IZR; lra).
  assert (G1 : G < 364) by (apply lt_IZR; lra).
  assert (G0' : (0 <= IZR G)%R) by (apply IZR_le; lia).
  assert (G1' : (IZR G <= 363)%R) by (apply IZR_le; lia).
  split; [lia|]. split.
  - (* r - G <= 1/2 - 1/3000 *)
    destruct (Z_le_gt_dec s (G * G + G)) as [Hle|Hgt].
    + apply IZR_le in Hle. rewrite plus_IZR, mult_IZR in Hle. nra.
    + assert (Hge : G * G + G + 1 <= s) by lia.
      apply IZR_le in Hge. rewrite !plus_IZR, mult_IZR in Hge. nra.
  - destruct (Z_le_gt_dec (G * G - G + 1) s) as [Hge|Hlt].
    + apply IZR_le in Hge. rewrite plus_IZR, minus_IZR, mult_IZR in Hge. nra.
    + assert (Hle : s <= G * G - G) by lia.
      destruct (Z.eq_dec G 0) as [->|Hne].
      * assert (s = 0) by lia. subst s. nra.
      * assert (G2 : (1 <= IZR G)%R) by (apply IZR_le; lia).
        apply IZR_le in Hle. rewrite minus_IZR, mult_IZR in Hle. nra.
Qed.

Lemma prod_between (x y bx by' : R) :
  (- bx <= x <= bx)%R → (- by' <= y <= by')%R →
  (- (bx * by') <= x * y <= bx * by')%R.
Proof.
  intros Hx Hy. apply abs_between. rewrite Rabs_mult.
  apply Rmult_le_compat; try apply Rabs_pos; now apply between_abs.
Qed.

Lemma small_root (s : Z) :
  0 <= s < 131072 →
  (0 <= sqrt (IZR s))%R ∧ (sqrt (IZR s) * sqrt (IZR s) = IZR s)%R ∧
  (sqrt (IZR s) <= 363)%R.
Proof.
  intros Hs. assert (H0 : (0 <= IZR s)%R) by (apply IZR_le; lia).
  assert (H1 : (IZR s < 131072)%R) by (apply IZR_lt; lia).
  pose proof (sqrt_pos (IZR s)) as Hp. pose proof (sqrt_sqrt _ H0) as Hq.
  repeat split; [exact Hp|exact Hq|nra].
Qed.

(** ** [setPolar] and [getMagnitude] on small values *)

Section Scalar.
Context `{FloatEnv}.

Lemma setPolar_zero v p : ComplexShort.setPolar v 0 p = Some zero.
Proof.
  unfold ComplexShort.setPolar, zero. rewrite (fl_int 0) by lia.
  rewrite !Rmult_0_l, fl_0.
  rewrite (Rtrunc_nonneg (0 + 0.5) 0) by lra. reflexivity.
Qed.

Lemma setPolar_phase_0 v m :
  0 <= m <= 32767 →
  ComplexShort.setPolar v m 0 = Some (ComplexShort.Build m 0).
Proof.
  intros Hm. assert (Hm' : (0 <= IZR m)%R) by (apply IZR_le; lia).
  unfold ComplexShort.setPolar. rewrite cosf_0, sinf_0, (fl_int m) by lia.
  rewrite Rmult_1_r, Rmult_0_r, fl_0, (fl_int m) by lia.
  rewrite (Rtrunc_nonneg (IZR m + 0.5) m) by lra.
  rewrite (Rtrunc_nonneg (0 + 0.5) 0) by lra.
  rewrite !to_int16_in by (unfold in_int16; lia). reflexivity.
Qed.

(** The floating-point branch of [getMagnitude] on a small value: the
    result is within [1/2 - 1/3000] of the root of the sum of squares. *)
Lemma getMagnitude_portable_small (v : ComplexShort.t) :
  let s := ComplexShort.re v * ComplexShort.re v + ComplexShort.im v * ComplexShort.im v in
  s < 131072 →
  ∃ g : Z, ComplexShort.getMagnitude PORTABLE v = Some g ∧ 0 <= g <= 363 ∧
    (- (1 / 2 - 1 / 3000) <= IZR g - sqrt (IZR s) <= 1 / 2 - 1 / 3000)%R.
Proof.
  intros s Hs. assert (Hs0 : 0 <= s) by (unfold s; nia).
  destruct (small_root s ltac:(lia)) as (Hr0 & Hrr & Hrb).
  set (r := sqrt (IZR s)) in *.
  pose proof (fl_near r 363 ltac:(lra) ltac:(lra)) as Hq. unfold u32, eta32 in Hq.
  set (q := fl r) in *.
  destruct (base_Int_part (q + 0.5)) as [I1 I2].
  destruct (nearest_to_root s (Int_part (q + 0.5)) r q) as [HG Hd]; try lra; try lia.
  exists (Int_part (q + 0.5)). split; [|split; [lia|exact Hd]].
  unfold ComplexShort.getMagnitude. cbv zeta. fold s.
  destruct (Z.leb_spec s 2147483647); [|lia].
  rewrite (fl_int s) by lia. unfold sqrtf. fold r. fold q.
  unfold Rtrunc. destruct (Rle_dec 0 (q + 0.5)); [|lra].
  apply to_int16_in. unfold in_int16; lia.
Qed.


(** With [ARM_CORTEX], the magnitude of a value is 0 exactly when its sum of
    squares is below 2^17. *)
Lemma getMagnitude_hw_zero (v : ComplexShort.t) :
  let s := ComplexShort.re v * ComplexShort.re v + ComplexShort.im v * ComplexShort.im v in
  in_int16 (ComplexShort.re v) → in_int16 (ComplexShort.im v) →
  (ComplexShort.getMagnitude ARM_CORTEX v = Some 0 ↔ s < 131072).
Proof.
  intros s Hr Hi. unfold in_int16 in Hr, Hi.
  assert (Hs : 0 <= s <= 2147483648) by (unfold s; nia).
  unfold ComplexShort.getMagnitude, arm_cmplx_mag_q15, arm_sqrt_q15. cbv zeta. fold s.
  rewrite !Z.shiftr_div_pow2 by lia.
  change (2 ^ 17) with 131072. change (2 ^ 1) with 2.
  assert (Ht : 0 <= s / 131072 <= 16384).
  { split; [apply Z.div_pos; lia|]. apply Z.div_le_upper_bound; lia. }
  rewrite (wrap16_id (s / 131072)) by (unfold in_int16; lia).
  destruct (Z.ltb_spec 0 (s / 131072)) as [Hpos|Hz].
  - assert (Hge : 131072 <= s).
    { pose proof (Z.mul_div_le s 131072 ltac:(lia)). lia. }
    set (t := s / 131072) in *.
    assert (Ho : 181 <= Z.sqrt (t * 32768) < 32768).
    { split.
      - change 181 with (Z.sqrt 32768). apply Z.sqrt_le_mono. lia.
      - apply Z.sqrt_lt_square; lia. }
    assert (Hg : 90 <= Z.sqrt (t * 32768) / 2 <= 32767).
    { split; [apply Z.div_le_lower_bound; lia|].
      apply Z.lt_succ_r. apply Z.div_lt_upper_bound; lia. }
    rewrite wrap16_id by (unfold in_int16; lia).
    split; [intros E; injection E; lia|lia].
  - assert (Hlt : s < 131072).
    { assert (E : s / 131072 = 0) by lia. apply Z.div_small_iff in E; lia. }
    change (0 / 2) with 0. split; [intros _; exact Hlt|reflexivity].
Qed.

End Scalar.

(** ** The single-precision products of [setPolar] *)

Section Products.
Context `{FloatEnv}.

(** The rounded product of a 16-bit magnitude and a computed cosine or sine
    [cf] of exact value [c] is within 1/64 of the exact product. *)
Lemma product_error (m : Z) (cf c : R) :
  in_int16 m → (- 1 <= c <= 1)%R → (- libm_eps <= cf - c <= libm_eps)%R →
  (- (1 / 64) <= fl (fl (IZR m) * cf) - IZR m * c <= 1 / 64)%R.
Proof.
  unfold in_int16, libm_eps. intros Hm Hc He. rewrite (fl_int m) by lia.
  assert (M0 : (-32768 <= IZR m)%R) by (apply IZR_le; lia).
  assert (M1 : (IZR m <= 32768)%R) by (apply IZR_le; lia).
  pose proof (prod_between (IZR m) cf 32768 (1 + / 4194304) ltac:(lra) ltac:(lra)) as P1.
  pose proof (prod_between (IZR m) (cf - c) 32768 (/ 4194304) ltac:(lra) ltac:(lra)) as P2.
  pose proof (fl_near (IZR m * cf) (32768 * (1 + / 4194304)) P1 ltac:(lra)) as Hf.
  unfold u32, eta32 in Hf. lra.
Qed.

(** For a magnitude other than -32768 no conversion of [setPolar]
    overflows, and neither field exceeds the magnitude. *)
Lemma setPolar_defined (v : ComplexShort.t) (m : Z) (p : R) :
  -32767 <= m <= 32767 →
  ∃ x y : Z,
    ComplexShort.setPolar v m p = Some (ComplexShort.Build x y) ∧
    x = Rtrunc (fl (fl (IZR m) * cosf p) + 0.5) ∧
    y = Rtrunc (fl (fl (IZR m) * sinf p) + 0.5) ∧
    Z.abs x <= Z.abs m ∧ Z.abs y <= Z.abs m.
Proof.
  intros Hm.
  assert (B : ∀ cf c : R, (- 1 <= c <= 1)%R → (- libm_eps <= cf - c <= libm_eps)%R →
              Z.abs (Rtrunc (fl (fl (IZR m) * cf) + 0.5)) <= Z.abs m).
  { intros cf c Hc He.
    pose proof (product_error m cf c ltac:(unfold in_int16; lia) Hc He) as Hp.
    pose proof (prod_between (IZR m) c (IZR (Z.abs m)) 1) as Pm.
    assert (A : (- IZR (Z.abs m) <= IZR m <= IZR (Z.abs m))%R).
    { split; [rewrite <- opp_IZR|]; apply IZR_le; lia. }
    specialize (Pm A ltac:(lra)).
    set (x := fl (fl (IZR m) * cf)) in *.
    pose proof (Rtrunc_toward_zero (x + 0.5)) as [T1 T2].
    set (z := Rtrunc (x + 0.5)) in *.
    destruct (Rle_dec 0 (x + 0.5)) as [Hpos|Hneg].
    - specialize (T1 Hpos).
      assert (-1 < z) by (apply lt_IZR; lra).
      assert (z < Z.abs m + 1) by (apply lt_IZR; rewrite plus_IZR; lra). lia.
    - specialize (T2 ltac:(lra)).
      assert (z < 1) by (apply lt_IZR; lra).
      assert (- Z.abs m - 1 < z - 1).
      { apply lt_IZR. rewrite !minus_IZR, opp_IZR. lra. }
      assert (0 < Z.abs m).
      { apply lt_IZR. lra. }
      lia. }
  pose proof (B (cosf p) (cos p) (COS_bound p) (cosf_near p)) as Bx.
  pose proof (B (sinf p) (sin p) (SIN_bound p) (sinf_near p)) as By.
  eexists _, _. split; [|split; [reflexivity|split; [reflexivity|split; [exact Bx|exact By]]]].
  unfold ComplexShort.setPolar.
  rewrite !to_int16_in by (unfold in_int16; lia). reflexivity.
Qed.

(** The magnitude -32768 at phase pi: the product is near 32768 and its
    conversion overflows. *)
Lemma setPolar_overflow (v : ComplexShort.t) :
  ComplexShort.setPolar v (-32768) PI = None.
Proof.
  pose proof (product_error (-32768) (cosf PI) (cos PI)
                ltac:(unfold in_int16; lia) (COS_bound PI) (cosf_near PI)) as Hp.
  rewrite cos_PI in Hp.
  unfold ComplexShort.setPolar.
  set (x := fl (fl (IZR (-32768)) * cosf PI)) in *.
  pose proof (Rtrunc_toward_zero (x + 0.5)) as [T1 _].
  specialize (T1 ltac:(lra)).
  rewrite (to_int16_out (Rtrunc (x + 0.5))); [reflexivity|].
  unfold in_int16. intros [_ Hz].
  assert (32767 < Rtrunc (x + 0.5)) by (apply lt_IZR; lra). lia.
Qed.

End Products.

(** ** [getMagnitude] with the hardware primitive *)

Section Magnitude.
Context `{FloatEnv}.

Lemma getMagnitude_hw_bound (v : ComplexShort.t) :
  in_int16 (ComplexShort.re v) → in_int16 (ComplexShort.im v) →
  ∃ g : Z, ComplexShort.getMagnitude ARM_CORTEX v = Some g ∧ 0 <= g <= 11585 ∧
    16 * (g * g)
    <= ComplexShort.re v * ComplexShort.re v + ComplexShort.im v * ComplexShort.im v.
Proof.
  unfold in_int16. intros Hr Hi.
  unfold ComplexShort.getMagnitude, arm_cmplx_mag_q15, arm_sqrt_q15. cbv zeta.
  set (s := ComplexShort.re v * ComplexShort.re v + ComplexShort.im v * ComplexShort.im v).
  assert (Hs : 0 <= s <= 2147483648) by (unfold s; nia).
  rewrite !Z.shiftr_div_pow2 by lia.
  change (2 ^ 17) with 131072. change (2 ^ 1) with 2.
  assert (Ht : 0 <= s / 131072 <= 16384).
  { split; [apply Z.div_pos; lia|]. apply Z.div_le_upper_bound; lia. }
  assert (Hts : 131072 * (s / 131072) <= s) by (apply Z.mul_div_le; lia).
  rewrite (wrap16_id (s / 131072)) by (unfold in_int16; lia).
  set (t := s / 131072) in *.
  assert (Ho : ∃ out, (if 0 <? t then Z.sqrt (t * 32768) else 0) = out ∧
                      0 <= out ∧ out * out <= t * 32768).
  { destruct (Z.ltb_spec 0 t).
    - exists (Z.sqrt (t * 32768)). split; [reflexivity|].
      split; [apply Z.sqrt_nonneg|]. apply Z.sqrt_spec. lia.
    - exists 0. split; [reflexivity|]. lia. }
  destruct Ho as (out & -> & Ho1 & Ho2).
  assert (Hg : 0 <= out / 2 ∧ 2 * (out / 2) <= out).
  { split; [apply Z.div_pos; lia|apply Z.mul_div_le; lia]. }
  assert (Hb : out < 32768) by nia.
  rewrite (wrap16_id (out / 2)) by (unfold in_int16; lia).
  exists (out / 2). split; [reflexivity|]. split; nia.
Qed.


End Magnitude.

(** ** The floating-point branch of [getMagnitude] *)

Lemma root_perturb (a r t E : R) :
  (0 <= a)%R → (0 < r)%R → (0 <= t)%R → (E <= t * r)%R →
  (- E <= a * a - r * r <= E)%R → (- t <= a - r <= t)%R.
Proof. intros Ha Hr Ht HE Hd. split; nra. Qed.

Section PortableMagnitude.
Context `{FloatEnv}.

(** The computed root [sqrtf (float s)] of an integer [1 <= s < 2^31]. *)
Lemma computed_root (s : Z) :
  1 <= s <= 2147483647 →
  let r := sqrt (IZR s) in
  (1 <= r <= 46341)%R ∧ (r * r = IZR s)%R ∧
  (- (1 / 100) <= sqrtf (fl (IZR s)) - r <= 1 / 100)%R.
Proof.
  intros Hs r.
  assert (S0 : (1 <= IZR s)%R) by (apply IZR_le; lia).
  assert (S1 : (IZR s <= 2147483647)%R) by (apply IZR_le; lia).
  pose proof (sqrt_pos (IZR s)) as R0. pose proof (sqrt_sqrt (IZR s) ltac:(lra)) as Rr.
  fold r in R0, Rr.
  assert (R1 : (1 <= r)%R) by nra. assert (R2 : (r <= 46341)%R) by nra.
  split; [lra|]. split; [exact Rr|].
  pose proof (fl_near (IZR s) (IZR s) ltac:(lra) ltac:(lra)) as Hy.
  unfold u32, eta32 in Hy. set (y := fl (IZR s)) in *.
  assert (Y0 : (0 <= y)%R) by lra.
  pose proof (sqrt_pos y) as A0. pose proof (sqrt_sqrt y Y0) as Aa.
  unfold sqrtf. set (a := sqrt y) in *.
  assert (Ha : (- (/ 16777216 * r + / 18446744073709551616) <= a - r
                <= / 16777216 * r + / 18446744073709551616)%R).
  { apply (root_perturb a r _ (/ 16777216 * IZR s + / 18446744073709551616)); nra. }
  pose proof (fl_near a 46342 ltac:(lra) ltac:(lra)) as Hq.
  unfold u32, eta32 in Hq. lra.
Qed.

Lemma getMagnitude_portable_bound (v : ComplexShort.t) :
  let s := ComplexShort.re v * ComplexShort.re v + ComplexShort.im v * ComplexShort.im v in
  s <= 1073676289 →
  ∃ g : Z, ComplexShort.getMagnitude PORTABLE v = Some g ∧ 0 <= g <= 32767 ∧
    (- (1 / 2 + 1 / 100) <= IZR g - sqrt (IZR s) <= 1 / 2 + 1 / 100)%R.
Proof.
  intros s Hs. assert (Hs0 : 0 <= s) by (unfold s; nia).
  destruct (Z_lt_le_dec s 131072) as [Hsmall|Hbig].
  - destruct (getMagnitude_portable_small v Hsmall) as (g & Hg & Hb & Hd).
    exists g. split; [exact Hg|]. split; [lia|]. fold s in Hd. lra.
  - destruct (computed_root s ltac:(lia)) as (Hr & Hrr & Hq). cbv zeta in *.
    set (r := sqrt (IZR s)) in *. set (q := sqrtf (fl (IZR s))) in *.
    assert (S1 : (IZR s <= 1073676289)%R) by (apply IZR_le; lia).
    assert (R2 : (r <= 32767)%R) by nra.
    destruct (base_Int_part (q + 0.5)) as [I1 I2].
    assert (G0 : -1 < Int_part (q + 0.5)) by (apply lt_IZR; lra).
    assert (G1 : Int_part (q + 0.5) < 32768) by (apply lt_IZR; lra).
    exists (Int_part (q + 0.5)). split; [|split; [lia|lra]].
    unfold ComplexShort.getMagnitude. cbv zeta. fold s.
    destruct (Z.leb_spec s 2147483647); [|lia]. fold q.
    unfold Rtrunc. destruct (Rle_dec 0 (q + 0.5)); [|lra].
    apply to_int16_in. unfold in_int16; lia.
Qed.

Lemma getMagnitude_portable_undefined (v : ComplexShort.t) :
  let s := ComplexShort.re v * ComplexShort.re v + ComplexShort.im v * ComplexShort.im v in
  1073741824 <= s → ComplexShort.getMagnitude PORTABLE v = None.
Proof.
  intros s Hs. unfold ComplexShort.getMagnitude. cbv zeta. fold s.
  destruct (Z.leb_spec s 2147483647) as [Hle|]; [|reflexivity].
  destruct (computed_root s ltac:(lia)) as (Hr & Hrr & Hq). cbv zeta in *.
  set (r := sqrt (IZR s)) in *. set (q := sqrtf (fl (IZR s))) in *.
  assert (S1 : (1073741824 <= IZR s)%R) by (apply IZR_le; lia).
  assert (R2 : (32768 <= r)%R) by nra.
  apply to_int16_out. unfold in_int16. intros [_ Hz].
  pose proof (Rtrunc_toward_zero (q + 0.5)) as [T1 _]. specialize (T1 ltac:(lra)).
  assert (32767 < Rtrunc (q + 0.5)) by (apply lt_IZR; lra). lia.
Qed.

End PortableMagnitude.

(** ** [setPhase] after [getPhase] *)

Lemma sqrt_IZR_square (x : Z) : 0 <= x → sqrt (IZR (x * x)) = IZR x.
Proof. intros Hx. rewrite mult_IZR. apply sqrt_square, IZR_le. exact Hx. Qed.



Section RoundTrip.
Context `{FloatEnv}.

Lemma getPhase_zero : ComplexShort.getPhase zero = 0%R.
Proof. apply atan2f_0. simpl. lia. Qed.

Lemma getPhase_pos_re x :
  0 <= x → ComplexShort.getPhase (ComplexShort.Build x 0) = 0%R.
Proof. intros Hx. apply atan2f_0. exact Hx. Qed.




(** With [ARM_CORTEX] a small value becomes the zero value, whatever the
    phase. *)
Lemma setPhase_hw_zero (v : ComplexShort.t) (p : R) :
  in_int16 (ComplexShort.re v) → in_int16 (ComplexShort.im v) →
  ComplexShort.re v * ComplexShort.re v + ComplexShort.im v * ComplexShort.im v < 131072 →
  ComplexShort.setPhase ARM_CORTEX v p = Some zero.
Proof.
  intros Hr Hi Hs. unfold ComplexShort.setPhase.
  rewrite (proj2 (getMagnitude_hw_zero v Hr Hi) Hs). simpl. apply setPolar_zero.
Qed.

End RoundTrip.




(** ** Two setters against one [setPolar] *)

(** C6. On either path, in every floating-point environment, there are a
    value [v], a magnitude [m] and a phase [p] for which
    [v.setMagnitude(m); v.setPhase(p)] and [v.setPolar(m, p)] are both
    defined and end in different values. *)
Theorem setters_do_not_compose `{FloatEnv} (c : config) :
  ∃ (v : ComplexShort.t) (m : Z) (p : R) (w1 w2 : ComplexShort.t),
    in_int16 (ComplexShort.re v) ∧ in_int16 (ComplexShort.im v) ∧ in_int16 m ∧
    (ComplexShort.setMagnitude c v m ≫= λ u, ComplexShort.setPhase c u p) = Some w1 ∧
    ComplexShort.setPolar v m p = Some w2 ∧
    w1 ≠ w2.
Proof.
  destruct c.
  - exists (ComplexShort.Build 1 0), 5, 0%R, zero, (ComplexShort.Build 5 0).
    repeat (split; [unfold in_int16; simpl; lia|]).
    split; [|split; [apply setPolar_phase_0; lia|discriminate]].
    unfold ComplexShort.setMagnitude. rewrite getPhase_pos_re by lia.
    rewrite setPolar_phase_0 by lia. simpl.
    apply setPhase_hw_zero; unfold in_int16; simpl; lia.
  - exists (ComplexShort.Build (-1) 0), 3, 0%R,
      (ComplexShort.Build 2 0), (ComplexShort.Build 3 0).
    repeat (split; [unfold in_int16; simpl; lia|]).
    split; [|split; [apply setPolar_phase_0; lia|discriminate]].
    assert (E : ComplexShort.setMagnitude PORTABLE (ComplexShort.Build (-1) 0) 3
                = Some (ComplexShort.Build (-2) 0)).
    { unfold ComplexShort.setMagnitude, ComplexShort.getPhase. simpl.
      destruct (computed_phase (-1) 0 ltac:(lia)) as [Hc Hs]. cbv zeta in Hc, Hs.
      change (-1 * -1 + 0 * 0) with (1 * 1) in Hc, Hs.
      rewrite sqrt_IZR_square in Hc, Hs by lia.
      pose proof (cosf_near (atan2f 0 (-1))) as C1. pose proof (COS_bound (atan2f 0 (-1))) as C2.
      pose proof (sinf_near (atan2f 0 (-1))) as S1. pose proof (SIN_bound (atan2f 0 (-1))) as S2.
      unfold libm_eps in *. unfold ComplexShort.setPolar.
      rewrite (product_near 3 (-3) (cosf (atan2f 0 (-1))) (1 / 100));
        [|lia|lra|lra|unfold u32, eta32; lra].
      rewrite (product_near 3 0 (sinf (atan2f 0 (-1))) (1 / 100));
        [|lia|lra|lra|unfold u32, eta32; lra].
      reflexivity. }
    rewrite E. simpl. unfold ComplexShort.setPhase.
    assert (M : ComplexShort.getMagnitude PORTABLE (ComplexShort.Build (-2) 0) = Some 2).
    { destruct (getMagnitude_portable_small (ComplexShort.Build (-2) 0)) as (g & Hg & _ & Hd);
        [simpl; lia|].
      simpl in Hd. change (-2 * -2 + 0 * 0) with (2 * 2) in Hd.
      rewrite sqrt_IZR_square in Hd by lia.
      assert (1 < g) by (apply lt_IZR; lra). assert (g < 3) by (apply lt_IZR; lra).
      rewrite Hg. f_equal. lia. }
    rewrite M. simpl. apply setPolar_phase_0. lia.
Qed.

(** ** [ComplexShort::getMagnitude] *)

(** C7. With [ARM_CORTEX], [getMagnitude] of [{16384, 0}] is 4096, while the
    rounded root of [re^2 + im^2] is 16384; in general the value returned
    is non-negative and at most a quarter of [sqrt (re^2 + im^2)]. *)
Theorem getMagnitude_hw_quarter `{FloatEnv} :
  (ComplexShort.getMagnitude ARM_CORTEX (ComplexShort.Build 16384 0) = Some 4096 ∧
   Z.sqrt (16384 * 16384 + 0 * 0) = 16384) ∧
  (∀ v : ComplexShort.t,
     in_int16 (ComplexShort.re v) → in_int16 (ComplexShort.im v) →
     ∃ g : Z,
       ComplexShort.getMagnitude ARM_CORTEX v = Some g ∧
       0 <= g ∧
       16 * (g * g)
       <= ComplexShort.re v * ComplexShort.re v + ComplexShort.im v * ComplexShort.im v).
Proof.
  split; [split; reflexivity|]. intros v Hr Hi.
  destruct (getMagnitude_hw_bound v Hr Hi) as (g & Hg & Hb & Hq).
  exists g. split; [exact Hg|]. split; [lia|exact Hq].
Qed.

Lemma getMagnitude_hw_quarter_witness :
  ∃ g : Z,
    @ComplexShort.getMagnitude exact_env ARM_CORTEX (ComplexShort.Build 3 4) = Some g ∧
    0 <= g ∧ 16 * (g * g) <= 3 * 3 + 4 * 4.
Proof.
  destruct (@getMagnitude_hw_quarter exact_env) as [_ Q].
  apply (Q (ComplexShort.Build 3 4)); unfold in_int16; simpl; lia.
Defined.

(** ** [ComplexShort::setPolar] *)

(** C8. [setPolar(m, p)] stores in [re] the truncation toward zero of the
    single-precision product [m * cosf(p)] plus 0.5, and in [im] that of
    [m * sinf(p)] plus 0.5.  The two products are within 1/64 of
    [m * cos p] and [m * sin p].  A truncated value within the 16-bit range
    is stored as it is; one outside is converted without any check, which
    has no defined result: this is the case for [m = -32768] and [p = pi],
    where the truncated value is 32768. *)
Theorem setPolar_spec `{FloatEnv} (v : ComplexShort.t) (m : Z) (p : R) :
  in_int16 m →
  let xr := fl (fl (IZR m) * cosf p) in
  let xi := fl (fl (IZR m) * sinf p) in
  (∃ zr zi : Z,
     toward_zero (xr + 0.5) zr ∧
     toward_zero (xi + 0.5) zi ∧
     (in_int16 zr → in_int16 zi →
        ComplexShort.setPolar v m p = Some (ComplexShort.Build zr zi)) ∧
     (¬ in_int16 zr ∨ ¬ in_int16 zi → ComplexShort.setPolar v m p = None)) ∧
  (Rabs (xr - IZR m * cos p) <= 1 / 64)%R ∧
  (Rabs (xi - IZR m * sin p) <= 1 / 64)%R ∧
  (-32767 <= m → ∃ w, ComplexShort.setPolar v m p = Some w) ∧
  ComplexShort.setPolar v (-32768) PI = None.
Proof.
  intros Hm xr xi. split; [|split; [|split; [|split]]].
  - exists (Rtrunc (xr + 0.5)), (Rtrunc (xi + 0.5)).
    split; [apply Rtrunc_toward_zero|]. split; [apply Rtrunc_toward_zero|].
    unfold ComplexShort.setPolar. fold xr xi. split.
    + intros Zr Zi. rewrite !to_int16_in by assumption. reflexivity.
    + intros [Zr|Zi].
      * rewrite (to_int16_out _ Zr). reflexivity.
      * rewrite (to_int16_out _ Zi).
        destruct (to_int16 (Rtrunc (xr + 0.5))); reflexivity.
  - apply between_abs, product_error; [exact Hm|apply COS_bound|apply cosf_near].
  - apply between_abs, product_error; [exact Hm|apply SIN_bound|apply sinf_near].
  - intros Hlo. unfold in_int16 in Hm.
    destruct (setPolar_defined v m p ltac:(lia)) as (x & y & E & _). eauto.
  - apply setPolar_overflow.
Qed.

Lemma setPolar_spec_witness :
  @ComplexShort.setPolar exact_env zero 5 0 = Some (ComplexShort.Build 5 0).
Proof.
  destruct (@setPolar_spec exact_env zero 5 0%R) as [(zr & zi & Tr & Ti & S & _) _];
    [unfold in_int16; lia|].
  assert (Er : zr = 5).
  { rewrite <- (toward_zero_unique _ _ Tr).
    rewrite (@cosf_0 exact_env), (@fl_int exact_env 5), Rmult_1_r,
      (@fl_int exact_env 5) by lia.
    apply Rtrunc_nonneg; lra. }
  assert (Ei : zi = 0).
  { rewrite <- (toward_zero_unique _ _ Ti).
    rewrite (@sinf_0 exact_env), Rmult_0_r, (@fl_int exact_env 0) by lia.
    apply Rtrunc_nonneg; lra. }
  subst zr zi. apply S; unfold in_int16; lia.
Defined.

(** ** Rounding in [setPolar] *)

(** X11. For a magnitude [m] other than -32768 every conversion of
    [setPolar(m, p)] is in range.  The stored [re] lies strictly between
    [m * cos p - 1/2 - 1/64] and [m * cos p + 3/2 + 1/64]; it is within
    [1/2 + 1/64] of [m * cos p] when that is at least [-1/2 + 1/64]; and its
    absolute value is at most that of [m].  The same holds for [im] and
    [m * sin p]. *)
Theorem setPolar_rounding `{FloatEnv} (v : ComplexShort.t) (m : Z) (p : R) :
  -32767 <= m <= 32767 →
  ∃ x y : Z,
    ComplexShort.setPolar v m p = Some (ComplexShort.Build x y) ∧
    (IZR m * cos p - 1 / 2 - 1 / 64 < IZR x < IZR m * cos p + 3 / 2 + 1 / 64)%R ∧
    (IZR m * sin p - 1 / 2 - 1 / 64 < IZR y < IZR m * sin p + 3 / 2 + 1 / 64)%R ∧
    ((- 1 / 2 + 1 / 64 <= IZR m * cos p)%R →
       (IZR x <= IZR m * cos p + 1 / 2 + 1 / 64)%R) ∧
    ((- 1 / 2 + 1 / 64 <= IZR m * sin p)%R →
       (IZR y <= IZR m * sin p + 1 / 2 + 1 / 64)%R) ∧
    Z.abs x <= Z.abs m ∧ Z.abs y <= Z.abs m.
Proof.
  intros Hm.
  destruct (setPolar_defined v m p Hm) as (x & y & E & -> & -> & Ax & Ay).
  pose proof (product_error m (cosf p) (cos p) ltac:(unfold in_int16; lia)
                (COS_bound p) (cosf_near p)) as Pc.
  pose proof (product_error m (sinf p) (sin p) ltac:(unfold in_int16; lia)
                (SIN_bound p) (sinf_near p)) as Ps.
  set (xr := fl (fl (IZR m) * cosf p)) in *.
  set (xi := fl (fl (IZR m) * sinf p)) in *.
  pose proof (Rtrunc_toward_zero (xr + 0.5)) as [Tr1 Tr2].
  pose proof (Rtrunc_toward_zero (xi + 0.5)) as [Ti1 Ti2].
  eexists _, _. split; [exact E|].
  split; [destruct (Rle_dec 0 (xr + 0.5)); [specialize (Tr1 ltac:(lra))
                                          |specialize (Tr2 ltac:(lra))]; lra|].
  split; [destruct (Rle_dec 0 (xi + 0.5)); [specialize (Ti1 ltac:(lra))
                                          |specialize (Ti2 ltac:(lra))]; lra|].
  split; [intros Q; specialize (Tr1 ltac:(lra)); lra|].
  split; [intros Q; specialize (Ti1 ltac:(lra)); lra|].
  split; assumption.
Qed.

Lemma setPolar_rounding_witness :
  ∃ x y : Z,
    @ComplexShort.setPolar exact_env zero 100 1 = Some (ComplexShort.Build x y) ∧
    Z.abs x <= 100 ∧ Z.abs y <= 100.
Proof.
  destruct (@setPolar_rounding exact_env zero 100 1%R) as (x & y & E & _ & _ & _ & _ & Ax & Ay);
    [lia|].
  exists x, y. split; [exact E|]. split; [exact Ax|exact Ay].
Defined.

(** ** The floating-point branch of [getMagnitude] *)

(** X12. In the branch without [ARM_CORTEX], for a sum of squares up to
    32767^2, [getMagnitude] is defined, lies in [0, 32767] and is within
    [1/2 + 1/100] of [sqrt (re^2 + im^2)]; for a sum of squares below 2^17
    it is the nearest integer to the root. *)
Theorem getMagnitude_portable_rounded `{FloatEnv} (v : ComplexShort.t) :
  let s := ComplexShort.re v * ComplexShort.re v + ComplexShort.im v * ComplexShort.im v in
  s <= 1073676289 →
  ∃ g : Z,
    ComplexShort.getMagnitude PORTABLE v = Some g ∧
    0 <= g <= 32767 ∧
    (Rabs (IZR g - sqrt (IZR s)) <= 1 / 2 + 1 / 100)%R ∧
    (s < 131072 → s <= g * g + g ∧ (0 < s → g * g - g < s)).
Proof.
  intros s Hs. assert (Hs0 : 0 <= s) by (unfold s; nia).
  destruct (getMagnitude_portable_bound v Hs) as (g & Hg & Hb & Hd). fold s in Hd.
  exists g. split; [exact Hg|]. split; [exact Hb|]. split; [now apply between_abs|].
  intros Hsmall.
  destruct (getMagnitude_portable_small v Hsmall) as (g' & Hg' & _ & Hd').
  rewrite Hg in Hg'. injection Hg' as <-. fold s in Hd'.
  destruct (small_root s ltac:(lia)) as (Hr0 & Hrr & _).
  set (r := sqrt (IZR s)) in *.
  assert (G0 : (0 <= IZR g)%R) by (apply IZR_le; lia).
  split.
  - assert (Q : (IZR s < IZR g * IZR g + IZR g + 1)%R) by nra.
    assert (Q' : s < g * g + g + 1)
      by (apply lt_IZR; rewrite !plus_IZR, mult_IZR; exact Q).
    lia.
  - intros Hpos. assert (S1 : (1 <= IZR s)%R) by (apply IZR_le; lia).
    apply lt_IZR. rewrite minus_IZR, mult_IZR.
    destruct (Z.eq_dec g 0) as [->|Hne]; [lra|].
    assert (G1 : (1 <= IZR g)%R) by (apply IZR_le; lia). nra.
Qed.

Lemma getMagnitude_portable_rounded_witness :
  @ComplexShort.getMagnitude exact_env PORTABLE (ComplexShort.Build 3 4) = Some 5.
Proof.
  destruct (@getMagnitude_portable_rounded exact_env (ComplexShort.Build 3 4))
    as (g & Hg & Hb & _ & Hn); [simpl; lia|].
  destruct Hn as [N1 N2]; [simpl; lia|]. simpl in N1, N2.
  rewrite Hg. f_equal. nia.
Defined.

(** X13. In the branch without [ARM_CORTEX], a sum of squares of at least
    2^30 leaves [getMagnitude] without a defined result: the sum overflows
    [int], or the rounded root is at least 32768 and is converted to
    [int16_t] without a check. *)
Theorem getMagnitude_portable_overflow `{FloatEnv} (v : ComplexShort.t) :
  1073741824
  <= ComplexShort.re v * ComplexShort.re v + ComplexShort.im v * ComplexShort.im v →
  ComplexShort.getMagnitude PORTABLE v = None.
Proof. intros Hs. now apply getMagnitude_portable_undefined. Qed.

Lemma getMagnitude_portable_overflow_witness :
  @ComplexShort.getMagnitude exact_env PORTABLE (ComplexShort.Build 32767 32767) = None.
Proof.
  apply (@getMagnitude_portable_overflow exact_env (ComplexShort.Build 32767 32767)).
  simpl. lia.
Defined.

(** ** Magnitude zero *)

(** X14. Setting the magnitude to 0 gives the zero value and loses the
    phase: a later [setMagnitude(m)] with [0 <= m <= 32767] gives [{m, 0}],
    whatever the value was before. *)
Theorem setMagnitude_zero_loses_phase `{FloatEnv} (c : config) (v : ComplexShort.t) (m : Z) :
  0 <= m <= 32767 →
  ComplexShort.setMagnitude c v 0 = Some zero ∧
  (ComplexShort.setMagnitude c v 0 ≫= λ w, ComplexShort.setMagnitude c w m)
  = Some (ComplexShort.Build m 0).
Proof.
  intros Hm.
  assert (E : ComplexShort.setMagnitude c v 0 = Some zero) by apply setPolar_zero.
  split; [exact E|]. rewrite E. simpl. unfold ComplexShort.setMagnitude.
  rewrite getPhase_zero. apply setPolar_phase_0. exact Hm.
Qed.

Lemma setMagnitude_zero_loses_phase_witness :
  (@ComplexShort.setMagnitude exact_env ARM_CORTEX (ComplexShort.Build 0 (-9)) 0
   ≫= λ w, @ComplexShort.setMagnitude exact_env ARM_CORTEX w 9)
  = Some (ComplexShort.Build 9 0).
Proof.
  apply (@setMagnitude_zero_loses_phase exact_env ARM_CORTEX (ComplexShort.Build 0 (-9)) 9).
  lia.
Defined.

(** X15. With [ARM_CORTEX], [getMagnitude] is 0 exactly for the values with
    [re^2 + im^2 < 131072], and [setPhase] turns each of them into the zero
    value, whatever the phase. *)
Theorem setPhase_hw_small `{FloatEnv} (v : ComplexShort.t) (p : R) :
  let s := ComplexShort.re v * ComplexShort.re v + ComplexShort.im v * ComplexShort.im v in
  in_int16 (ComplexShort.re v) → in_int16 (ComplexShort.im v) →
  (ComplexShort.getMagnitude ARM_CORTEX v = Some 0 ↔ s < 131072) ∧
  (s < 131072 → ComplexShort.setPhase ARM_CORTEX v p = Some zero).
Proof.
  intros s Hr Hi. split; [now apply getMagnitude_hw_zero|].
  intros Hs. now apply setPhase_hw_zero.
Qed.

Lemma setPhase_hw_small_witness :
  @ComplexShort.setPhase exact_env ARM_CORTEX (ComplexShort.Build 300 (-200)) PI = Some zero.
Proof.
  destruct (@setPhase_hw_small exact_env (ComplexShort.Build 300 (-200)) PI) as [_ S];
    [unfold in_int16; simpl; lia..|].
  apply S. simpl. lia.
Defined.
